(** * textual-fspicker: the directory and drive navigation widgets

    A shallow embedding of [textual_fspicker/parts/directory_navigation.py]
    and [textual_fspicker/parts/drive_navigation.py], and the properties of
    the navigation state machine, the scan worker and the display
    projection that hold (or fail) on that code.

    Conventions of the embedding:
    - a [pathlib.Path] is its drive and the list of its components below
      the root; the filesystem is a finite tree without symbolic links;
    - Python objects that are compared by identity carry an object id;
    - the widget is a record of its attributes, a method is a function on
      that record which also reports whether an exception escaped;
    - the body of the thread worker [_load] is cut into its statements, and
      a schedule interleaves those statements with the handlers that run
      on the application thread. *)

From Stdlib Require Import ZArith Bool Ascii String Permutation Sorted.
From stdpp Require Import base list strings.

Open Scope string_scope.
Open Scope list_scope.

(** ** pathlib *)

Module pathlib.

(** An absolute path: [drive] is empty on POSIX and something like
    ["C:"] on Windows; the root separator is implied; [parts] are the
    components below the root and may still contain [".."]. *)
Record Path := mkPath { drive : string; parts : list string }.

#[global] Instance Path_eq_dec : EqDecision Path.
Proof. solve_decision. Defined.

(** [Path(p.root)]: the bare root, which never carries a drive. *)
Definition root_path (p : Path) : Path := mkPath "" [].

(** [p.name]: the final component, [""] for a root. *)
Definition name (p : Path) : string := List.last (parts p) "".

(** [p / child] for a single component. *)
Definition joinpath (p : Path) (child : string) : Path :=
  mkPath (drive p) (parts p ++ [child]).

(** [p.parent]. The parent of a root is the root itself. *)
Definition parent (p : Path) : Path := mkPath (drive p) (removelast (parts p)).

(** [p.resolve()] (not strict): without symbolic links this collapses
    the [".."] components from left to right; [".."] at a root stays at
    the root. *)
Fixpoint collapse (done todo : list string) : list string :=
  match todo with
  | [] => done
  | c :: todo' =>
      if decide (c = "..") then collapse (removelast done) todo'
      else collapse (done ++ [c]) todo'
  end.

Definition resolve (p : Path) : Path := mkPath (drive p) (collapse [] (parts p)).

End pathlib.
Export pathlib.

(** ** The filesystem *)

Record Node := mkNode {
  node_is_dir   : bool;
  node_mtime    : Z;             (* [int(st_mtime)]: whole seconds *)
  node_children : list string    (* names in enumeration order *)
}.

(** A filesystem maps a resolved path to what is stored there. *)
Definition FS := Path -> option Node.

(** A filesystem given by a table; the first match counts. *)
Fixpoint fs_of (table : list (Path * Node)) : FS :=
  fun p =>
    match table with
    | [] => None
    | (q, n) :: table' => if decide (p = q) then Some n else fs_of table' p
    end.

(** Path lookup as the operating system does it: every prefix that is
    stepped through must be an existing directory, [".."] goes up. *)
Fixpoint walk (fs : FS) (d : string) (cur todo : list string) : option Path :=
  match todo with
  | [] => Some (mkPath d cur)
  | c :: todo' =>
      match fs (mkPath d cur) with
      | Some n =>
          if node_is_dir n
          then walk fs d (if decide (c = "..") then removelast cur else cur ++ [c]) todo'
          else None
      | None => None
      end
  end.

(** [p.stat()]; [None] stands for the [OSError] it raises. *)
Definition stat (fs : FS) (p : Path) : option Node :=
  match walk fs (drive p) [] (parts p) with
  | Some q => fs q
  | None => None
  end.

(** [p.is_dir()]: false when the path cannot be reached. *)
Definition is_dir (fs : FS) (p : Path) : bool :=
  match stat fs p with
  | Some n => node_is_dir n
  | None => false
  end.

(** [p.iterdir()], as the list it will yield; [None] when the listing
    raises [OSError] (missing path, not a directory). *)
Definition iterdir (fs : FS) (p : Path) : option (list Path) :=
  match stat fs p with
  | Some n => if node_is_dir n then Some (map (joinpath p) (node_children n)) else None
  | None => None
  end.

(** ** Exceptions and the method monad *)

Inductive Exn := OSError | AttributeError.

#[global] Instance Exn_eq_dec : EqDecision Exn.
Proof. solve_decision. Defined.

Inductive Result (A : Type) :=
| Ok (a : A)
| Raise (e : Exn).
Arguments Ok {A} a.
Arguments Raise {A} e.

(** A method of an object of type [S]: it returns or raises, and in both
    cases leaves the object in some state. *)
Definition Method (S A : Type) : Type := S -> Result A * S.

Definition ret {S A} (a : A) : Method S A := fun s => (Ok a, s).

Definition bind {S A B} (m : Method S A) (k : A -> Method S B) : Method S B :=
  fun s =>
    match m s with
    | (Ok a, s') => k a s'
    | (Raise e, s') => (Raise e, s')
    end.

Definition raise {S A} (e : Exn) : Method S A := fun s => (Raise e, s).
Definition get {S} : Method S S := fun s => (Ok s, s).
Definition modify {S} (f : S -> S) : Method S unit := fun s => (Ok tt, f s).

Declare Scope method_scope.
Delimit Scope method_scope with method.
Notation "x <- m ;; k" := (bind m (fun x => k))
  (at level 100, m at next level, k at level 200, right associativity) : method_scope.
Notation "m ;; k" := (bind m (fun _ => k))
  (at level 100, k at level 200, right associativity) : method_scope.

(** The state a method leaves behind, whether it returned or raised. *)
Definition after {S A} (m : Method S A) (s : S) : S := snd (m s).

(** ** DirectoryEntry *)

(** An entry is an [Option] of the option list. Neither [DirectoryEntry]
    nor its base class defines [__eq__], so [==] on entries is Python's
    default: identity of the object. [oid] is that identity. *)
Record DirectoryEntry := mkEntry {
  oid          : nat;
  location     : Path;      (* [location.resolve()] *)
  prompt_name  : string;    (* second column of the prompt: [location.name] *)
  prompt_mtime : Z          (* third column: [_mtime( location )] *)
}.

#[global] Instance DirectoryEntry_eq_dec : EqDecision DirectoryEntry.
Proof. solve_decision. Defined.

(** [a == b] on entries. *)
Definition entry_eq (a b : DirectoryEntry) : bool := Nat.eqb (oid a) (oid b).

(** [DirectoryEntry( location )] for the object id [o]: the location is
    resolved, the prompt is built from the path as given, and building
    the prompt calls [location.stat()], which may raise. *)
Definition DirectoryEntry_init (fs : FS) (o : nat) (loc : Path) : option DirectoryEntry :=
  match stat fs loc with
  | Some n => Some (mkEntry o (resolve loc) (name loc) (node_mtime n))
  | None => None
  end.

(** ** The worker that runs [_load] *)

(** How a run of [_load] ended. *)
Inductive WorkerEnd :=
| Completed            (* fell off the end, after [call_from_thread] *)
| Returned             (* the [return] under [if worker.is_cancelled] *)
| Failed (e : Exn).    (* an exception escaped *)

#[global] Instance WorkerEnd_eq_dec : EqDecision WorkerEnd.
Proof. solve_decision. Defined.

(** Where the thread of a worker stands in the body of [_load]. The loop
    variable of [for entry in self._location.iterdir()] is the head of
    [pending]. *)
Inductive Pc :=
| AtClear                          (* about to run [self._entries = []] *)
| AtIterdir                        (* about to evaluate [self._location.iterdir()] *)
| AtNext (pending : list Path)     (* at the loop head, about to take the next child *)
| AtCheck (pending : list Path)    (* about to test [worker.is_cancelled] *)
| AtRepopulate                     (* about to run [call_from_thread( _repopulate_display )] *)
| Finished (r : WorkerEnd).

#[global] Instance Pc_eq_dec : EqDecision Pc.
Proof. solve_decision. Defined.

(** A worker of the widget: its thread and the flag that
    [Worker.cancel] sets and [worker.is_cancelled] reads. *)
Record Worker := mkWorker { pc : Pc; is_cancelled : bool }.

#[global] Instance Worker_eq_dec : EqDecision Worker.
Proof. solve_decision. Defined.

(** ** DirectoryNavigation *)

Record DirectoryNavigation := mkNav {
  _mounted          : bool;
  _initial_location : Path;
  _location         : Path;                  (* reactive [var] *)
  show_hidden       : bool;                  (* reactive [var] *)
  sort_display      : bool;                  (* reactive [var] *)
  _entries          : list DirectoryEntry;   (* the cache [_load] fills *)
  options           : list DirectoryEntry;   (* the rows of the [OptionList] *)
  highlighted       : option nat;            (* [OptionList.highlighted] *)
  changed_posted    : nat;                   (* [Changed] messages posted so far *)
  workers           : list Worker;           (* every [_load] worker started, oldest first *)
  next_oid          : nat                    (* identity of the next object created *)
}.

#[global] Instance DirectoryNavigation_eq_dec : EqDecision DirectoryNavigation.
Proof. solve_decision. Defined.

Definition Nav := Method DirectoryNavigation.

Definition set__mounted (v : bool) (s : DirectoryNavigation) :=
  mkNav v (_initial_location s) (_location s) (show_hidden s) (sort_display s)
        (_entries s) (options s) (highlighted s) (changed_posted s) (workers s) (next_oid s).
Definition set__initial_location (v : Path) (s : DirectoryNavigation) :=
  mkNav (_mounted s) v (_location s) (show_hidden s) (sort_display s)
        (_entries s) (options s) (highlighted s) (changed_posted s) (workers s) (next_oid s).
Definition store__location (v : Path) (s : DirectoryNavigation) :=
  mkNav (_mounted s) (_initial_location s) v (show_hidden s) (sort_display s)
        (_entries s) (options s) (highlighted s) (changed_posted s) (workers s) (next_oid s).
Definition store_show_hidden (v : bool) (s : DirectoryNavigation) :=
  mkNav (_mounted s) (_initial_location s) (_location s) v (sort_display s)
        (_entries s) (options s) (highlighted s) (changed_posted s) (workers s) (next_oid s).
Definition store_sort_display (v : bool) (s : DirectoryNavigation) :=
  mkNav (_mounted s) (_initial_location s) (_location s) (show_hidden s) v
        (_entries s) (options s) (highlighted s) (changed_posted s) (workers s) (next_oid s).
Definition set__entries (v : list DirectoryEntry) (s : DirectoryNavigation) :=
  mkNav (_mounted s) (_initial_location s) (_location s) (show_hidden s) (sort_display s)
        v (options s) (highlighted s) (changed_posted s) (workers s) (next_oid s).
Definition set_options (v : list DirectoryEntry) (s : DirectoryNavigation) :=
  mkNav (_mounted s) (_initial_location s) (_location s) (show_hidden s) (sort_display s)
        (_entries s) v (highlighted s) (changed_posted s) (workers s) (next_oid s).
Definition set_highlighted (v : option nat) (s : DirectoryNavigation) :=
  mkNav (_mounted s) (_initial_location s) (_location s) (show_hidden s) (sort_display s)
        (_entries s) (options s) v (changed_posted s) (workers s) (next_oid s).
Definition set_changed_posted (v : nat) (s : DirectoryNavigation) :=
  mkNav (_mounted s) (_initial_location s) (_location s) (show_hidden s) (sort_display s)
        (_entries s) (options s) (highlighted s) v (workers s) (next_oid s).
Definition set_workers (v : list Worker) (s : DirectoryNavigation) :=
  mkNav (_mounted s) (_initial_location s) (_location s) (show_hidden s) (sort_display s)
        (_entries s) (options s) (highlighted s) (changed_posted s) v (next_oid s).
Definition set_next_oid (v : nat) (s : DirectoryNavigation) :=
  mkNav (_mounted s) (_initial_location s) (_location s) (show_hidden s) (sort_display s)
        (_entries s) (options s) (highlighted s) (changed_posted s) (workers s) v.

(** *** Creating entries *)

(** [DirectoryEntry( loc )] inside a method of the widget: the new object
    takes the next identity. *)
Definition new_DirectoryEntry (fs : FS) (loc : Path) : Nav DirectoryEntry :=
  fun s =>
    match DirectoryEntry_init fs (next_oid s) loc with
    | Some e => (Ok e, set_next_oid (S (next_oid s)) s)
    | None => (Raise OSError, s)
    end.

(** *** The option list the widget inherits from *)

(** [clear_options()]: no rows, nothing highlighted. *)
Definition clear_options : Nav unit :=
  modify (fun s => set_highlighted None (set_options [] s)).

(** [add_option( e )] and [add_options( es )]: rows go to the end. *)
Definition add_option (e : DirectoryEntry) : Nav unit :=
  modify (fun s => set_options (options s ++ [e]) s).
Definition add_options (es : list DirectoryEntry) : Nav unit :=
  modify (fun s => set_options (options s ++ es) s).

(** *** Projection of the cache to the display *)

(** [_settle_highlight]: [highlighted = 0] when nothing is highlighted;
    the option list validates the assignment and keeps [None] when it
    has no row. *)
Definition _settle_highlight : Nav unit :=
  modify (fun s =>
    match highlighted s with
    | None => set_highlighted (match options s with [] => None | _ => Some 0 end) s
    | Some _ => s
    end).

(** [is_root]: [self._location == Path( self._location.root )]. *)
Definition is_root (s : DirectoryNavigation) : bool :=
  bool_decide (_location s = root_path (_location s)).

(** [is_hidden( path )]: [path.name.startswith( "." )]. *)
Definition is_hidden (path : Path) : bool := String.prefix "." (name path).

(** [hide( path )]: [is_hidden( path ) and not show_hidden]. *)
Definition hide (show : bool) (path : Path) : bool := is_hidden path && negb show.

(** [sorted( entries, key=lambda entry: entry.location.name )]: a stable
    sort on the name, strings compared character by character. An entry
    is put in front of the first later entry whose name is not smaller. *)
Definition sort_key (e : DirectoryEntry) : string := name (location e).

Fixpoint insert_sorted (e : DirectoryEntry) (l : list DirectoryEntry) : list DirectoryEntry :=
  match l with
  | [] => [e]
  | x :: l' =>
      if String.leb (sort_key e) (sort_key x) then e :: x :: l'
      else x :: insert_sorted e l'
  end.

Definition sorted (l : list DirectoryEntry) : list DirectoryEntry :=
  foldr insert_sorted [] l.

(** [_sort( entries )]. *)
Definition _sort (sort : bool) (entries : list DirectoryEntry) : list DirectoryEntry :=
  if sort then sorted entries else entries.

(** The rows below the parent row:
    [_sort( entry for entry in self._entries if not self.hide( entry.location ) )]. *)
Definition shown (show sort : bool) (entries : list DirectoryEntry) : list DirectoryEntry :=
  _sort sort (List.filter (fun e => negb (hide show (location e))) entries).

(** [_repopulate_display]. *)
Definition _repopulate_display (fs : FS) : Nav unit :=
  (clear_options ;;
   s <- get ;;
   (if is_root s then ret tt
    else (e <- new_DirectoryEntry fs (joinpath (_location s) "..") ;; add_option e)) ;;
   s <- get ;;
   add_options (shown (show_hidden s) (sort_display s) (_entries s)) ;;
   _settle_highlight)%method.

(** *** Reactive attributes and their watchers *)

(** [_load()] as the caller sees it: [@work(exclusive=True)] cancels the
    workers started before and starts a new one. *)
Definition cancel (w : Worker) : Worker :=
  match pc w with
  | Finished _ => w      (* a worker that has ended is no longer in the group *)
  | _ => mkWorker (pc w) true
  end.

Definition _load : Nav unit :=
  modify (fun s => set_workers (map cancel (workers s) ++ [mkWorker AtClear false]) s).

(** [_watch__location]. *)
Definition _watch__location : Nav unit :=
  (modify (fun s => set_changed_posted (S (changed_posted s)) s) ;;
   _load)%method.

(** [self._location = v]: a reactive attribute calls its watcher only
    when the value changes. *)
Definition assign__location (v : Path) : Nav unit :=
  fun s =>
    if decide (_location s = v) then (Ok tt, s)
    else _watch__location (store__location v s).

(** [self.show_hidden = v], with [_watch_show_hidden]. *)
Definition assign_show_hidden (fs : FS) (v : bool) : Nav unit :=
  fun s =>
    if decide (show_hidden s = v) then (Ok tt, s)
    else _repopulate_display fs (store_show_hidden v s).

(** [self.sort_display = v], with [_watch_sort_display]. *)
Definition assign_sort_display (fs : FS) (v : bool) : Nav unit :=
  fun s =>
    if decide (sort_display s = v) then (Ok tt, s)
    else _repopulate_display fs (store_sort_display v s).

(** *** Public interface *)

(** The [location] setter. The argument is the absolute path that
    [Path( new_location ).expanduser()] denotes. *)
Definition location_setter (new_location : Path) : Nav unit :=
  fun s =>
    let new_location := resolve new_location in
    if _mounted s then assign__location new_location s
    else (Ok tt, set__initial_location new_location s).

(** [on_mount]. *)
Definition on_mount : Nav unit :=
  (modify (set__mounted true) ;;
   s <- get ;;
   assign__location (_initial_location s))%method.

(** [toggle_hidden]. *)
Definition toggle_hidden (fs : FS) : Nav unit :=
  fun s => assign_show_hidden fs (negb (show_hidden s)) s.

(** [_on_option_list_option_selected] for the row at index [i]. *)
Definition _on_option_list_option_selected (i : nat) : Nav unit :=
  fun s =>
    match options s !! i with
    | Some option => assign__location (location option) s
    | None => (Ok tt, s)
    end.

(** *** The body of [_load], statement by statement *)

(** Move worker [w] to [p]; its cancellation flag is not the thread's to
    change. *)
Definition goto (w : nat) (p : Pc) (s : DirectoryNavigation) : DirectoryNavigation :=
  set_workers (alter (fun wk => mkWorker p (is_cancelled wk)) w (workers s)) s.

(** The thread of worker [w] executes the statement it stands at. The
    widget is shared: [self._entries] and [self._location] are read and
    written as they are at that moment. *)
Definition run_worker (fs : FS) (w : nat) (s : DirectoryNavigation) : DirectoryNavigation :=
  match workers s !! w with
  | None => s
  | Some wk =>
      match pc wk with
      | AtClear =>
          (* self._entries = [] *)
          goto w AtIterdir (set__entries [] s)
      | AtIterdir =>
          (* for entry in self._location.iterdir(): *)
          match iterdir fs (_location s) with
          | Some children => goto w (AtNext children) s
          | None => goto w (Finished (Failed OSError)) s
          end
      | AtNext [] =>
          goto w AtRepopulate s
      | AtNext (entry :: pending) =>
          (* if entry.is_dir():
                 self._entries.append( DirectoryEntry( self._location / entry.name ) ) *)
          if is_dir fs entry then
            match new_DirectoryEntry fs (joinpath (_location s) (name entry)) s with
            | (Ok e, s') => goto w (AtCheck pending) (set__entries (_entries s' ++ [e]) s')
            | (Raise x, s') => goto w (Finished (Failed x)) s'
            end
          else goto w (AtCheck pending) s
      | AtCheck pending =>
          (* if worker.is_cancelled: return *)
          if is_cancelled wk then goto w (Finished Returned) s
          else goto w (AtNext pending) s
      | AtRepopulate =>
          (* self.app.call_from_thread( self._repopulate_display ) *)
          match _repopulate_display fs s with
          | (Ok _, s') => goto w (Finished Completed) s'
          | (Raise x, s') => goto w (Finished (Failed x)) s'
          end
      | Finished _ => s
      end
  end.

(** *** Schedules *)

(** What can happen next to a widget: a handler runs on the application
    thread, or the thread of one worker executes one statement. *)
Inductive Event :=
| Mount                          (* [on_mount] *)
| SetLocation (p : Path)         (* [nav.location = p] *)
| Select (i : nat)               (* the row at index [i] is selected *)
| ToggleHidden                   (* [toggle_hidden()] *)
| SetSortDisplay (v : bool)      (* [nav.sort_display = v] *)
| Run (w : nat).                 (* worker [w] executes one statement *)

Definition step (fs : FS) (s : DirectoryNavigation) (ev : Event) : DirectoryNavigation :=
  match ev with
  | Mount => after on_mount s
  | SetLocation p => after (location_setter p) s
  | Select i => after (_on_option_list_option_selected i) s
  | ToggleHidden => after (toggle_hidden fs) s
  | SetSortDisplay v => after (assign_sort_display fs v) s
  | Run w => run_worker fs w s
  end.

Definition exec (fs : FS) (schedule : list Event) (s : DirectoryNavigation) : DirectoryNavigation :=
  fold_left (step fs) schedule s.

(** [DirectoryNavigation( location )] before it is mounted: [cwd] is the
    default of the reactive [_location]. *)
Definition DirectoryNavigation_init (cwd location : Path) : DirectoryNavigation :=
  mkNav false (resolve location) cwd false true [] [] None 0 [] 0.

(** The paths of the subdirectories of [loc], in enumeration order: what
    a scan of [loc] is meant to find. *)
Definition listing (fs : FS) (loc : Path) : list Path :=
  match iterdir fs loc with
  | Some children => map resolve (List.filter (is_dir fs) children)
  | None => []
  end.

(** ** DriveNavigation *)

Module drive_navigation.

(** What [os.listdrives()] does on the platform at hand: it returns the
    drives, it does not exist (anything but Windows), or it fails. *)
Inductive Platform :=
| Drives (roots : list string)
| NoListdrives
| ListdrivesFails.

Definition os_listdrives (platform : Platform) : Result (list string) :=
  match platform with
  | Drives roots => Ok roots
  | NoListdrives => Raise AttributeError
  | ListdrivesFails => Raise OSError
  end.

Record DriveNavigation := mkDrives {
  drive_options : list string;    (* the rows of the [OptionList] *)
  drive_posted  : list string     (* [drive_root] of each [DriveSelected] posted *)
}.

(** [on_mount]: [self.add_options( os.listdrives() )]. *)
Definition on_mount (platform : Platform) : Method DriveNavigation unit :=
  fun s =>
    match os_listdrives platform with
    | Ok roots => (Ok tt, mkDrives (drive_options s ++ roots) (drive_posted s))
    | Raise e => (Raise e, s)
    end.

(** [select_drive] for the row at index [i]. *)
Definition select_drive (i : nat) : Method DriveNavigation unit :=
  fun s =>
    match drive_options s !! i with
    | Some prompt => (Ok tt, mkDrives (drive_options s) (drive_posted s ++ [prompt]))
    | None => (Ok tt, s)
    end.

End drive_navigation.

(** ** Concrete filesystems used in the scenarios *)

Definition posix (ps : list string) : Path := mkPath "" ps.
Definition dir (mtime : Z) (children : list string) : Node := mkNode true mtime children.
Definition file (mtime : Z) : Node := mkNode false mtime [].

(** [/a] holds the directories [.git], [src] and [docs]. *)
Definition fs_a : FS :=
  fs_of [ (posix [], dir 10 ["a"]);
          (posix ["a"], dir 20 [".git"; "src"; "docs"]);
          (posix ["a"; ".git"], dir 30 []);
          (posix ["a"; "src"], dir 40 []);
          (posix ["a"; "docs"], dir 50 []) ].

(** The same tree with a second directory [/b], which holds a
    subdirectory [src] and a regular file [data], and a directory [/c]
    that holds a subdirectory [data]. *)
Definition fs_abc : FS :=
  fs_of [ (posix [], dir 10 ["a"; "b"; "c"]);
          (posix ["a"], dir 20 [".git"; "src"; "docs"]);
          (posix ["a"; ".git"], dir 30 []);
          (posix ["a"; "src"], dir 40 []);
          (posix ["a"; "docs"], dir 50 []);
          (posix ["b"], dir 60 ["data"; "src"]);
          (posix ["b"; "data"], file 70);
          (posix ["b"; "src"], dir 80 []);
          (posix ["c"], dir 90 ["data"]);
          (posix ["c"; "data"], dir 100 []) ].

(** A widget created for [/a] by a process whose working directory is
    [/home], and the same widget once it is mounted and its first scan
    has run to the end undisturbed. *)
Definition nav_created : DirectoryNavigation :=
  DirectoryNavigation_init (posix ["home"]) (posix ["a"]).

Definition nav_at_a (fs : FS) : DirectoryNavigation :=
  exec fs (Mount :: replicate 10 (Run 0)) nav_created.

(** ** Notions used in the statements *)

(** The order [sorted] is meant to establish. *)
Definition name_le (a b : DirectoryEntry) : Prop :=
  String.leb (sort_key a) (sort_key b) = true.

(** Entries of one name keep the order they had. *)
Definition named (n : string) (l : list DirectoryEntry) : list DirectoryEntry :=
  List.filter (fun e => bool_decide (sort_key e = n)) l.

(** The widget after a projection that put [rows] above the rows taken
    from the cache and created objects up to identity [n]. *)
Definition displayed (rows : list DirectoryEntry) (n : nat) (s : DirectoryNavigation)
  : DirectoryNavigation :=
  let all := rows ++ shown (show_hidden s) (sort_display s) (_entries s) in
  mkNav (_mounted s) (_initial_location s) (_location s) (show_hidden s) (sort_display s)
        (_entries s) all (match all with [] => None | _ => Some 0 end)
        (changed_posted s) (workers s) n.

(** The parent row: [DirectoryEntry( self._location / ".." )]. *)
Definition parent_row (fs : FS) (s : DirectoryNavigation) : option DirectoryEntry :=
  DirectoryEntry_init fs (next_oid s) (joinpath (_location s) "..").

(** The entries of the cache that the hidden filter lets through, in
    cache order. *)
Definition unhidden (s : DirectoryNavigation) : list DirectoryEntry :=
  List.filter (fun e => negb (hide (show_hidden s) (location e))) (_entries s).

(** The tree [fs_a] after something touched [/]: only the modification
    time of the root differs. *)
Definition fs_a_touched : FS :=
  fs_of [ (posix [], dir 11 ["a"]);
          (posix ["a"], dir 20 [".git"; "src"; "docs"]);
          (posix ["a"; ".git"], dir 30 []);
          (posix ["a"; "src"], dir 40 []);
          (posix ["a"; "docs"], dir 50 []) ].

(** What a change of a display flag may and may not do, for the result
    [out] of the operation on [s]: no worker is started and no message
    posted, the cache and the location stay, and when the operation
    returns after changing a flag the rows are at most one parent row
    followed by [shown] of the old cache under the new flags. The parent
    row is made anew by [DirectoryEntry( self._location / ".." )], which
    asks the filesystem; when that raises, the operation raises and no
    row is displayed. *)
Definition flags_only (fs : FS) (s : DirectoryNavigation)
    (out : Result unit * DirectoryNavigation) : Prop :=
  let s' := snd out in
  workers s' = workers s /\ changed_posted s' = changed_posted s /\
  _entries s' = _entries s /\ _location s' = _location s /\
  ((show_hidden s', sort_display s') = (show_hidden s, sort_display s) -> s' = s) /\
  ((show_hidden s', sort_display s') <> (show_hidden s, sort_display s) ->
     match fst out with
     | Ok _ =>
         exists parent_rows,
           options s' = parent_rows ++ shown (show_hidden s') (sort_display s') (_entries s) /\
           (if is_root s then parent_rows = []
            else exists e, parent_rows = [e] /\ parent_row fs s = Some e)
     | Raise _ => is_root s = false /\ parent_row fs s = None /\ options s' = []
     end).

(** A drive [C:] whose root holds one directory. *)
Definition win (ps : list string) : Path := mkPath "C:" ps.

Definition fs_c : FS :=
  fs_of [ (win [], dir 10 ["Users"]);
          (win ["Users"], dir 20 []) ].

(** [Worker.cancel()] on worker [w]: what [_load] does to the workers
    started before, and what the framework does to the workers of a
    widget that goes away. *)
Definition cancel_worker (w : nat) (s : DirectoryNavigation) : DirectoryNavigation :=
  set_workers (alter cancel w (workers s)) s.

(** The entries a scan of [loc] appends for the children [names], the
    first of them getting identity [o]. *)
Fixpoint scanned (fs : FS) (loc : Path) (o : nat) (names : list string)
  : list DirectoryEntry :=
  match names with
  | [] => []
  | n :: names' =>
      match stat fs (joinpath loc n) with
      | Some nd =>
          if node_is_dir nd
          then mkEntry o (resolve (joinpath loc n)) n (node_mtime nd)
                 :: scanned fs loc (S o) names'
          else scanned fs loc o names'
      | None => scanned fs loc o names'
      end
  end.

(** The parts of the widget a scan does not write before it hands over
    to [_repopulate_display]. *)
Definition untouched (s0 s : DirectoryNavigation) : Prop :=
  options s = options s0 /\ highlighted s = highlighted s0 /\
  _location s = _location s0 /\ show_hidden s = show_hidden s0 /\
  sort_display s = sort_display s0 /\ changed_posted s = changed_posted s0.

(** The scan started in [s0] has processed the children [done] and has
    [rest] before it. *)
Definition partial_scan (fs : FS) (s0 s : DirectoryNavigation) (done rest : list string)
  : Prop :=
  iterdir fs (_location s0) = Some (map (joinpath (_location s0)) (done ++ rest)) /\
  _entries s = scanned fs (_location s0) (next_oid s0) done /\
  next_oid s = next_oid s0 + length (_entries s).

(** What holds while worker [w], started in [s0], runs with nothing else
    happening to the widget but its own cancellation. *)
Definition scan_inv (fs : FS) (s0 : DirectoryNavigation) (w : nat) (s : DirectoryNavigation)
  : Prop :=
  exists wk, workers s !! w = Some wk /\
    match pc wk with
    | AtClear => untouched s0 s /\ next_oid s = next_oid s0
    | AtIterdir => untouched s0 s /\ _entries s = [] /\ next_oid s = next_oid s0
    | AtNext pending =>
        untouched s0 s /\
        exists done rest, pending = map (joinpath (_location s0)) rest /\
                          partial_scan fs s0 s done rest
    | AtCheck pending =>
        untouched s0 s /\
        exists done rest, done <> [] /\ pending = map (joinpath (_location s0)) rest /\
                          partial_scan fs s0 s done rest
    | Finished Returned =>
        untouched s0 s /\
        exists done rest, done <> [] /\ partial_scan fs s0 s done rest
    | AtRepopulate =>
        untouched s0 s /\ exists names, partial_scan fs s0 s names []
    | Finished Completed =>
        _location s = _location s0 /\
        (exists names,
           iterdir fs (_location s0) = Some (map (joinpath (_location s0)) names) /\
           _entries s = scanned fs (_location s0) (next_oid s0) names) /\
        exists parent_rows,
          length parent_rows <= 1 /\
          options s = parent_rows ++ shown (show_hidden s0) (sort_display s0) (_entries s)
    | Finished (Failed _) => True
    end.

(** The schedule of the race. The widget shows [/a]. It is sent to [/c]
    and, before that scan has processed its first child, on to [/b]. *)
Definition race_schedule : list Event :=
  [ SetLocation (posix ["c"]);   (* worker 1 is to scan /c *)
    Run 1;                       (* 1: self._entries = [] *)
    Run 1;                       (* 1: iterdir() of /c yields /c/data *)
    SetLocation (posix ["b"]);   (* worker 1 is cancelled, worker 2 is to scan /b *)
    Run 2;                       (* 2: self._entries = [] *)
    Run 1;                       (* 1: /c/data is a directory: append
                                       DirectoryEntry( self._location / "data" ) *)
    Run 1;                       (* 1: is_cancelled, return *)
    Run 2;                       (* 2: iterdir() of /b yields /b/data, /b/src *)
    Run 2; Run 2;                (* 2: /b/data is not a directory *)
    Run 2; Run 2;                (* 2: /b/src is appended *)
    Run 2;                       (* 2: the iterator is exhausted *)
    Run 2 ].                     (* 2: _repopulate_display *)

(** The entries a widget holds: those of the cache and the rows. *)
Definition live (s : DirectoryNavigation) : list DirectoryEntry :=
  _entries s ++ options s.

(** Identities are given out once: those in [l] are below [n], and two
    entries of [l] with one identity are one entry. *)
Definition objects_ok (n : nat) (l : list DirectoryEntry) : Prop :=
  (forall e, In e l -> oid e < n) /\
  (forall e1 e2, In e1 l -> In e2 l -> oid e1 = oid e2 -> e1 = e2).

Definition Wf (s : DirectoryNavigation) : Prop := objects_ok (next_oid s) (live s).

(** A path without a [".."] component, as [resolve] returns it. *)
Definition normalised (p : Path) : Prop := ~ In ".." (parts p).

(** Every path the widget holds is normalised: the initial and the
    current location and the location of every entry. *)
Definition tidy (s : DirectoryNavigation) : Prop :=
  normalised (_initial_location s) /\ normalised (_location s) /\
  List.Forall (fun e => normalised (location e)) (live s).

(** The worker has left the loop of [_load] by exhausting the iterator:
    it is about to hand over to [_repopulate_display] or has done so. *)
Definition handed_over (p : Pc) : Prop :=
  match p with
  | AtRepopulate | Finished Completed | Finished (Failed _) => True
  | _ => False
  end.

#[global] Instance Event_eq_dec : EqDecision Event.
Proof. solve_decision. Defined.

(** How many entries a cancelled worker standing at [p] can still append
    before it meets its cancellation check. *)
Definition may_append (p : Pc) : nat :=
  match p with
  | AtClear | AtIterdir | AtNext _ => 1
  | AtCheck _ | AtRepopulate | Finished _ => 0
  end.

(** * Properties *)

(** ** Bookkeeping lemmas *)

Lemma goto_lookup w p s wk :
  workers s !! w = Some wk ->
  workers (goto w p s) !! w = Some (mkWorker p (is_cancelled wk)).
Proof.
  intros H. unfold goto; simpl. rewrite list_lookup_alter_eq, H. reflexivity.
Qed.

Lemma goto_fields w p s :
  _mounted (goto w p s) = _mounted s /\
  _initial_location (goto w p s) = _initial_location s /\
  _location (goto w p s) = _location s /\
  show_hidden (goto w p s) = show_hidden s /\
  sort_display (goto w p s) = sort_display s /\
  _entries (goto w p s) = _entries s /\
  options (goto w p s) = options s /\
  highlighted (goto w p s) = highlighted s /\
  changed_posted (goto w p s) = changed_posted s /\
  next_oid (goto w p s) = next_oid s.
Proof. repeat split. Qed.

(** ** C3: a scan whose enumeration fails *)

(** C3, counterexample. The widget shows [/a] with three cached entries
    and is sent to [/missing]; the scan of [/missing] fails on
    [iterdir()], and the cache is empty afterwards, not what it was
    before the scan started. *)
Lemma failed_scan_clears_cache :
  let before := exec fs_a [SetLocation (posix ["missing"])] (nav_at_a fs_a) in
  let after_scan := exec fs_a [Run 1; Run 1] before in
  iterdir fs_a (_location before) = None /\
  workers after_scan !! 1 = Some (mkWorker (Finished (Failed OSError)) false) /\
  length (_entries before) = 3 /\
  _entries after_scan <> _entries before.
Proof. vm_compute. repeat split; congruence. Qed.

(** C3, amended. When [iterdir()] raises, the scan ends with that error
    and never reaches the display: the current location, the displayed
    rows and the highlight are what they were before the scan. The cache
    is not kept: the scan emptied it before it enumerated. *)
Theorem failed_scan_effect (fs : FS) (s : DirectoryNavigation) (w : nat) (wk : Worker) :
  workers s !! w = Some wk ->
  pc wk = AtClear ->
  iterdir fs (_location s) = None ->
  let s' := exec fs [Run w; Run w] s in
  workers s' !! w = Some (mkWorker (Finished (Failed OSError)) (is_cancelled wk)) /\
  _location s' = _location s /\
  options s' = options s /\
  highlighted s' = highlighted s /\
  _entries s' = [] /\
  run_worker fs w s' = s'.
Proof.
  intros Hw Hpc Hdir. simpl.
  assert (H1 : run_worker fs w s = goto w AtIterdir (set__entries [] s)).
  { unfold run_worker. rewrite Hw, Hpc. reflexivity. }
  rewrite H1.
  assert (Hw1 : workers (goto w AtIterdir (set__entries [] s)) !! w
                = Some (mkWorker AtIterdir (is_cancelled wk))).
  { apply goto_lookup. exact Hw. }
  assert (H2 : run_worker fs w (goto w AtIterdir (set__entries [] s))
               = goto w (Finished (Failed OSError)) (goto w AtIterdir (set__entries [] s))).
  { unfold run_worker at 1. rewrite Hw1. simpl pc. cbv iota.
    change (_location (goto w AtIterdir (set__entries [] s))) with (_location s).
    rewrite Hdir. reflexivity. }
  rewrite H2.
  assert (Hw2 : workers (goto w (Finished (Failed OSError))
                           (goto w AtIterdir (set__entries [] s))) !! w
                = Some (mkWorker (Finished (Failed OSError)) (is_cancelled wk))).
  { erewrite goto_lookup by exact Hw1. reflexivity. }
  repeat split; try assumption.
  unfold run_worker. rewrite Hw2. reflexivity.
Qed.

Lemma failed_scan_effect_witness :
  let s := exec fs_a [SetLocation (posix ["missing"])] (nav_at_a fs_a) in
  _entries (exec fs_a [Run 1; Run 1] s) = [].
Proof.
  intros s.
  apply (failed_scan_effect fs_a s 1 (mkWorker AtClear false));
    vm_compute; reflexivity.
Defined.

(** ** Order of names *)

(** [String.leb] is the comparison of Python strings: the first
    differing character decides, a proper prefix is smaller. *)
Lemma leb_refl (a : string) : String.leb a a = true.
Proof. destruct (String.leb_total a a); assumption. Qed.

Lemma ascii_compare_gt_trans (a b c : Ascii.ascii) :
  Ascii.compare a b <> Gt -> Ascii.compare b c <> Gt ->
  Ascii.compare a c <> Gt /\
  (Ascii.compare a c = Eq -> Ascii.compare a b = Eq /\ Ascii.compare b c = Eq).
Proof.
  unfold Ascii.compare.
  destruct (N.compare_spec (Ascii.N_of_ascii a) (Ascii.N_of_ascii b));
    destruct (N.compare_spec (Ascii.N_of_ascii b) (Ascii.N_of_ascii c));
    destruct (N.compare_spec (Ascii.N_of_ascii a) (Ascii.N_of_ascii c));
    intros Hab Hbc; (split; [|intros Hac; split]); congruence || lia.
Qed.

Lemma compare_gt_trans (a : string) :
  forall b c, String.compare a b <> Gt -> String.compare b c <> Gt ->
              String.compare a c <> Gt.
Proof.
  induction a as [|x a IH]; intros [|y b] [|z c]; simpl; try congruence.
  intros Hab Hbc.
  assert (Hxy : Ascii.compare x y <> Gt) by (destruct (Ascii.compare x y); congruence).
  assert (Hyz : Ascii.compare y z <> Gt) by (destruct (Ascii.compare y z); congruence).
  destruct (ascii_compare_gt_trans x y z Hxy Hyz) as [Hxz Heq].
  destruct (Ascii.compare x z) eqn:E; try congruence.
  destruct (Heq eq_refl) as [E1 E2]. rewrite E1 in Hab. rewrite E2 in Hbc.
  apply (IH b c); assumption.
Qed.

Lemma leb_trans (a b c : string) :
  String.leb a b = true -> String.leb b c = true -> String.leb a c = true.
Proof.
  unfold String.leb. intros Hab Hbc.
  assert (H : String.compare a c <> Gt).
  { apply (compare_gt_trans a b c).
    - destruct (String.compare a b); congruence.
    - destruct (String.compare b c); congruence. }
  destruct (String.compare a c); congruence.
Qed.

(** ** [sorted] is a stable sort *)

Lemma insert_sorted_perm (e : DirectoryEntry) (l : list DirectoryEntry) :
  Permutation (insert_sorted e l) (e :: l).
Proof.
  induction l as [|x l IH]; simpl.
  - reflexivity.
  - destruct (String.leb (sort_key e) (sort_key x)).
    + reflexivity.
    + rewrite IH. apply perm_swap.
Qed.

Lemma sorted_perm (l : list DirectoryEntry) : Permutation (sorted l) l.
Proof.
  induction l as [|x l IH]; simpl.
  - reflexivity.
  - rewrite insert_sorted_perm. constructor. exact IH.
Qed.

Lemma sorted_In (e : DirectoryEntry) (l : list DirectoryEntry) :
  In e (sorted l) <-> In e l.
Proof.
  split; apply Permutation_in; [|symmetry]; apply sorted_perm.
Qed.

Lemma insert_sorted_ordered (e : DirectoryEntry) (l : list DirectoryEntry) :
  StronglySorted name_le l -> StronglySorted name_le (insert_sorted e l).
Proof.
  induction 1 as [|x l Hl IH Hx]; simpl.
  - repeat constructor.
  - destruct (String.leb (sort_key e) (sort_key x)) eqn:E.
    + constructor; [constructor; assumption|].
      constructor; [exact E|].
      eapply List.Forall_impl; [|exact Hx].
      intros y Hy. unfold name_le in *. eapply leb_trans; eassumption.
    + constructor; [exact IH|].
      rewrite List.Forall_forall. intros y Hy.
      apply (Permutation_in _ (insert_sorted_perm e l)) in Hy.
      destruct Hy as [<-|Hy].
      * unfold name_le. destruct (String.leb_total (sort_key x) (sort_key e)); congruence.
      * rewrite List.Forall_forall in Hx. apply Hx, Hy.
Qed.

Lemma sorted_ordered (l : list DirectoryEntry) : StronglySorted name_le (sorted l).
Proof.
  induction l as [|x l IH]; simpl.
  - constructor.
  - apply insert_sorted_ordered, IH.
Qed.

Lemma insert_sorted_stable (n : string) (e : DirectoryEntry) (l : list DirectoryEntry) :
  StronglySorted name_le l ->
  named n (insert_sorted e l) = named n (e :: l).
Proof.
  induction 1 as [|x l Hl IH Hx]; [reflexivity|].
  simpl insert_sorted.
  destruct (String.leb (sort_key e) (sort_key x)) eqn:E; [reflexivity|].
  unfold named in *. simpl in *. rewrite IH.
  destruct (bool_decide (sort_key e = n)) eqn:He;
    destruct (bool_decide (sort_key x = n)) eqn:Hx'; try reflexivity.
  apply bool_decide_eq_true in He, Hx'. subst n.
  rewrite Hx', leb_refl in E. discriminate.
Qed.

Lemma sorted_stable (n : string) (l : list DirectoryEntry) :
  named n (sorted l) = named n l.
Proof.
  induction l as [|x l IH]; [reflexivity|].
  simpl sorted. rewrite insert_sorted_stable by apply sorted_ordered.
  unfold named in *. simpl. rewrite IH. reflexivity.
Qed.

(** ** What [_repopulate_display] leaves behind *)

Lemma _repopulate_display_eq (fs : FS) (s : DirectoryNavigation) :
  _repopulate_display fs s =
    if is_root s then (Ok tt, displayed [] (next_oid s) s)
    else match parent_row fs s with
         | Some e => (Ok tt, displayed [e] (S (next_oid s)) s)
         | None => (Raise OSError, set_highlighted None (set_options [] s))
         end.
Proof.
  unfold _repopulate_display, bind, clear_options, modify, get, parent_row.
  simpl.
  change (is_root (set_highlighted None (set_options [] s))) with (is_root s).
  destruct (is_root s).
  - unfold ret, add_options, _settle_highlight, modify, displayed. simpl.
    destruct (shown _ _ _); reflexivity.
  - unfold new_DirectoryEntry. simpl.
    destruct (DirectoryEntry_init fs (next_oid s) (joinpath (_location s) "..")) as [e|];
      reflexivity.
Qed.

(** A projection that returns shows the cache rows below at most one
    parent row; one that raises shows nothing. Either way the cache, the
    location, the flags and the workers are not touched. *)
Lemma _repopulate_display_frame (fs : FS) (s : DirectoryNavigation) :
  let s' := after (_repopulate_display fs) s in
  _mounted s' = _mounted s /\ _initial_location s' = _initial_location s /\
  _location s' = _location s /\ show_hidden s' = show_hidden s /\
  sort_display s' = sort_display s /\ _entries s' = _entries s /\
  changed_posted s' = changed_posted s /\ workers s' = workers s.
Proof.
  unfold after. rewrite _repopulate_display_eq.
  destruct (is_root s); [|destruct (parent_row fs s)]; repeat split.
Qed.

Lemma _repopulate_display_options (fs : FS) (s s' : DirectoryNavigation) :
  _repopulate_display fs s = (Ok tt, s') ->
  exists parent_rows,
    options s' = parent_rows ++ shown (show_hidden s) (sort_display s) (_entries s) /\
    (if is_root s then parent_rows = []
     else exists e, parent_rows = [e] /\ parent_row fs s = Some e).
Proof.
  rewrite _repopulate_display_eq. intros H.
  destruct (is_root s).
  - exists []. inversion H; subst. split; reflexivity.
  - destruct (parent_row fs s) as [e|] eqn:E; [|discriminate].
    exists [e]. inversion H; subst. split; [reflexivity|]. exists e. split; reflexivity.
Qed.

Lemma parent_row_fields (fs : FS) (s : DirectoryNavigation) (e : DirectoryEntry) :
  parent_row fs s = Some e ->
  oid e = next_oid s /\ prompt_name e = ".." /\
  location e = resolve (joinpath (_location s) "..").
Proof.
  unfold parent_row, DirectoryEntry_init. destruct (stat fs _); [|discriminate].
  intros H; inversion H; subst; simpl. repeat split.
  unfold name, joinpath. simpl. apply last_last.
Qed.

Lemma shown_In (show sort : bool) (l : list DirectoryEntry) (e : DirectoryEntry) :
  In e (shown show sort l) <-> In e l /\ hide show (location e) = false.
Proof.
  unfold shown, _sort.
  destruct sort; [rewrite sorted_In|]; rewrite filter_In;
    destruct (hide show (location e)); simpl; intuition congruence.
Qed.

(** ** C6: the hidden-entry rule *)

Lemma is_hidden_dot (p : Path) :
  is_hidden p = true <-> exists rest, name p = String "."%char rest.
Proof.
  unfold is_hidden. destruct (name p) as [|c rest].
  - simpl. split; [discriminate|intros [r H]; discriminate].
  - change (String.prefix "." (String c rest))
      with (if Ascii.ascii_dec "."%char c then String.prefix "" rest else false).
    destruct (Ascii.ascii_dec "."%char c) as [<-|Hne].
    + split; [eexists; reflexivity|]. intros _. destruct rest; reflexivity.
    + split; [discriminate|]. intros [r H]. injection H as H _. congruence.
Qed.

(** C6. An entry of the cache counts as hidden exactly when its name
    starts with a dot. After a projection such an entry is not among the
    displayed rows when [show_hidden] is off and is among them when it is
    on; an entry whose name does not start with a dot is always among
    them. (The entries of the cache are objects that exist, so their
    identities are below the next one to be given out.) *)
Theorem hidden_entry_rule (fs : FS) (s s' : DirectoryNavigation) (e : DirectoryEntry) :
  _repopulate_display fs s = (Ok tt, s') ->
  List.Forall (fun x => oid x < next_oid s) (_entries s) ->
  In e (_entries s) ->
  (is_hidden (location e) = true <-> exists rest, name (location e) = String "."%char rest) /\
  (is_hidden (location e) = true -> show_hidden s = false -> ~ In e (options s')) /\
  (is_hidden (location e) = true -> show_hidden s = true -> In e (options s')) /\
  (is_hidden (location e) = false -> In e (options s')).
Proof.
  intros Hrun Hold He.
  destruct (_repopulate_display_options fs s s' Hrun) as (rows & Hopts & Hrows).
  rewrite Hopts.
  split; [apply is_hidden_dot|].
  split; [|split].
  - intros Hh Hs Hin. apply in_app_or in Hin. destruct Hin as [Hin|Hin].
    + destruct (is_root s); [subst rows; contradiction|].
      destruct Hrows as (p & -> & Hp). destruct Hin as [<-|[]].
      apply parent_row_fields in Hp. destruct Hp as [Hp _].
      rewrite List.Forall_forall in Hold. specialize (Hold _ He). lia.
    + apply shown_In in Hin. destruct Hin as [_ Hin].
      unfold hide in Hin. rewrite Hh, Hs in Hin. discriminate.
  - intros Hh Hs. apply in_or_app. right. apply shown_In. split; [exact He|].
    unfold hide. rewrite Hs. apply andb_false_r.
  - intros Hh. apply in_or_app. right. apply shown_In. split; [exact He|].
    unfold hide. rewrite Hh. reflexivity.
Qed.

Lemma hidden_entry_rule_witness :
  let s := nav_at_a fs_a in
  let e := mkEntry 0 (posix ["a"; ".git"]) ".git" 30 in
  is_hidden (location e) = true /\
  ~ In e (options (after (_repopulate_display fs_a) s)).
Proof.
  intros s e. split; [reflexivity|].
  refine (proj1 (proj2 (hidden_entry_rule fs_a s (after (_repopulate_display fs_a) s) e
                          _ _ _)) _ _).
  - vm_compute. reflexivity.
  - vm_compute. repeat constructor.
  - vm_compute. left. reflexivity.
  - reflexivity.
  - reflexivity.
Defined.

(** ** C8: the sort rule *)

(** C8. After a projection the rows below the parent row are, with
    [sort_display] on, the unhidden cache entries in ascending order of
    the names of their locations under the character-by-character
    (case-sensitive) comparison of strings, entries of one name in cache
    order; with [sort_display] off they are the unhidden cache entries in
    exactly the order of the cache. The order is spelled out on
    [name (location e)], not taken from the key [sorted] is given. *)
Theorem sort_rule (fs : FS) (s s' : DirectoryNavigation) :
  _repopulate_display fs s = (Ok tt, s') ->
  exists parent_rows rows,
    options s' = parent_rows ++ rows /\
    length parent_rows = (if is_root s then 0 else 1) /\
    (sort_display s = true ->
       StronglySorted
         (fun a b => String.leb (name (location a)) (name (location b)) = true) rows /\
       Permutation rows (unhidden s) /\
       forall n,
         List.filter (fun e => bool_decide (name (location e) = n)) rows
         = List.filter (fun e => bool_decide (name (location e) = n)) (unhidden s)) /\
    (sort_display s = false -> rows = unhidden s).
Proof.
  intros Hrun.
  destruct (_repopulate_display_options fs s s' Hrun) as (rows & Hopts & Hrows).
  exists rows, (shown (show_hidden s) (sort_display s) (_entries s)).
  split; [exact Hopts|]. split.
  - destruct (is_root s); [subst; reflexivity|].
    destruct Hrows as (e & -> & _). reflexivity.
  - unfold shown, unhidden. split; intros ->; simpl.
    + split; [exact (sorted_ordered _)|]. split; [apply sorted_perm|].
      intros n. exact (sorted_stable n _).
    + reflexivity.
Qed.

(** The scenario of the claim: [/a] holds [.git], [src] and [docs],
    hidden entries are not shown and the display is sorted. The rows are
    the parent row, which leads to [/], then [docs], then [src]. *)
Example scenario_a_sorted :
  let s := nav_at_a fs_a in
  show_hidden s = false /\ sort_display s = true /\
  map location (_entries s) = [posix ["a"; ".git"]; posix ["a"; "src"]; posix ["a"; "docs"]] /\
  map prompt_name (options s) = [".."; "docs"; "src"] /\
  map location (options s) = [posix []; posix ["a"; "docs"]; posix ["a"; "src"]].
Proof. vm_compute. repeat split. Qed.

(** With the sort switched off the rows keep the enumeration order. *)
Example scenario_a_unsorted :
  let s := exec fs_a [SetSortDisplay false] (nav_at_a fs_a) in
  map prompt_name (options s) = [".."; "src"; "docs"].
Proof. vm_compute. reflexivity. Qed.

(** Case matters: capitals sort before small letters. *)
Example sort_is_case_sensitive :
  map sort_key (sorted [mkEntry 0 (posix ["a"; "b"]) "b" 0;
                        mkEntry 1 (posix ["a"; "a"]) "a" 0;
                        mkEntry 2 (posix ["a"; "B"]) "B" 0]) = ["B"; "a"; "b"].
Proof. vm_compute. reflexivity. Qed.

Lemma sort_rule_witness :
  let s := exec fs_a (Mount :: replicate 9 (Run 0)) nav_created in
  sort_display s = true /\
  map prompt_name (unhidden s) = ["src"; "docs"] /\
  exists parent_rows rows,
    options (after (_repopulate_display fs_a) s) = parent_rows ++ rows /\
    length parent_rows = 1 /\
    StronglySorted
      (fun a b => String.leb (name (location a)) (name (location b)) = true) rows /\
    map prompt_name rows = ["docs"; "src"].
Proof.
  intros s.
  split; [vm_compute; reflexivity|]. split; [vm_compute; reflexivity|].
  destruct (sort_rule fs_a s (after (_repopulate_display fs_a) s)
              ltac:(vm_compute; reflexivity))
    as (parent_rows & rows & Hopts & Hlen & Hsorted & _).
  exists parent_rows, rows.
  assert (Hs : sort_display s = true) by (vm_compute; reflexivity).
  assert (Hr : is_root s = false) by (vm_compute; reflexivity).
  rewrite Hr in Hlen.
  destruct (Hsorted Hs) as (Hord & _ & _).
  split; [exact Hopts|]. split; [exact Hlen|]. split; [exact Hord|].
  destruct parent_rows as [|p [|q parent_rows]]; try discriminate Hlen.
  assert (Ho : options (after (_repopulate_display fs_a) s)
               = [mkEntry 3 (posix []) ".." 10;
                  mkEntry 2 (posix ["a"; "docs"]) "docs" 50;
                  mkEntry 1 (posix ["a"; "src"]) "src" 40])
    by (vm_compute; reflexivity).
  rewrite Ho in Hopts. injection Hopts as _ <-. reflexivity.
Defined.

(** ** C5: changing the display flags *)

(** C5, counterexample. From one and the same widget state (same cache,
    same location, same flags), [toggle_hidden] displays different rows
    on two filesystems that differ in the modification time of the
    parent directory: the projection reads the filesystem for the parent
    row, so the rows are not a function of the cache and the flags. *)
Lemma toggle_hidden_reads_filesystem :
  let s := nav_at_a fs_a in
  options (after (toggle_hidden fs_a) s) <> options (after (toggle_hidden fs_a_touched) s).
Proof. vm_compute. congruence. Qed.

Lemma _watch_flag (fs : FS) (s0 s : DirectoryNavigation) :
  workers s = workers s0 -> changed_posted s = changed_posted s0 ->
  _entries s = _entries s0 -> _location s = _location s0 ->
  next_oid s = next_oid s0 ->
  (show_hidden s, sort_display s) <> (show_hidden s0, sort_display s0) ->
  flags_only fs s0 (_repopulate_display fs s).
Proof.
  intros Hw Hc He Hl Hn Hflags.
  pose proof (_repopulate_display_frame fs s) as F. unfold after in F.
  destruct F as (_ & _ & Fl & Fh & Fs & Fe & Fc & Fw).
  unfold flags_only.
  rewrite Fw, Fc, Fe, Fl, Fh, Fs.
  repeat split; try congruence.
  intros _.
  assert (Hroot : is_root s = is_root s0) by (unfold is_root; rewrite Hl; reflexivity).
  assert (Hparent : parent_row fs s = parent_row fs s0)
    by (unfold parent_row; rewrite Hl, Hn; reflexivity).
  destruct (_repopulate_display fs s) as [[[]|x] s'] eqn:E; simpl.
  - destruct (_repopulate_display_options fs s s' E) as (rows & Ho & Hr).
    exists rows. rewrite <- He, <- Hroot, <- Hparent. split; assumption.
  - rewrite _repopulate_display_eq in E. rewrite <- Hroot, <- Hparent.
    destruct (is_root s); [discriminate|].
    destruct (parent_row fs s); [discriminate|].
    inversion E; subst. repeat split.
Qed.

(** C5, amended. Toggling [show_hidden] or assigning [sort_display]
    starts no scan and enumerates no directory: the cache and the current
    location are unchanged, and the rows below the parent row are derived
    from the existing cache and the new flags alone. The parent row
    itself is built anew from the current location and the filesystem. *)
Theorem flag_change_effect (fs : FS) (s : DirectoryNavigation) (v : bool) :
  flags_only fs s (toggle_hidden fs s) /\
  flags_only fs s (assign_sort_display fs v s).
Proof.
  split.
  - unfold toggle_hidden, assign_show_hidden.
    destruct (decide (show_hidden s = negb (show_hidden s))) as [E|_].
    + destruct (show_hidden s); discriminate.
    + apply _watch_flag; try reflexivity.
      simpl. destruct (show_hidden s); simpl; congruence.
  - unfold assign_sort_display.
    destruct (decide (sort_display s = v)) as [E|Hne].
    + unfold flags_only; simpl. repeat split. intros H; exfalso; apply H; reflexivity.
    + apply _watch_flag; try reflexivity.
      simpl. congruence.
Qed.

(** ** C7: the parent row *)

(** Without a drive, [is_root] holds exactly at the root. *)
Lemma is_root_posix (s : DirectoryNavigation) :
  drive (_location s) = "" ->
  (is_root s = true <-> parts (_location s) = []).
Proof.
  unfold is_root, root_path. destruct (_location s) as [d ps]; simpl. intros ->.
  rewrite bool_decide_eq_true. split; [intros H; inversion H|intros ->]; reflexivity.
Qed.

(** With a drive, [is_root] never holds, not even at the root of the
    drive: the path it compares with has no drive. *)
Lemma is_root_drive (s : DirectoryNavigation) :
  drive (_location s) <> "" -> is_root s = false.
Proof.
  unfold is_root, root_path. destruct (_location s) as [d ps]; simpl. intros H.
  apply bool_decide_eq_false. intros E. inversion E. congruence.
Qed.

(** The parent row, when there is one, is the first row, whatever the
    flags are, and carries the name [".."]. *)
Lemma parent_row_first (fs : FS) (s s' : DirectoryNavigation) :
  _repopulate_display fs s = (Ok tt, s') ->
  is_root s = false ->
  exists e, parent_row fs s = Some e /\ prompt_name e = ".." /\
            options s' = e :: shown (show_hidden s) (sort_display s) (_entries s).
Proof.
  intros Hrun Hroot.
  destruct (_repopulate_display_options fs s s' Hrun) as (rows & Hopts & Hrows).
  rewrite Hroot in Hrows. destruct Hrows as (e & -> & He).
  exists e. split; [exact He|]. split; [|exact Hopts].
  apply parent_row_fields in He. tauto.
Qed.

Lemma no_parent_row_at_root (fs : FS) (s s' : DirectoryNavigation) :
  _repopulate_display fs s = (Ok tt, s') ->
  is_root s = true ->
  options s' = shown (show_hidden s) (sort_display s) (_entries s).
Proof.
  intros Hrun Hroot.
  destruct (_repopulate_display_options fs s s' Hrun) as (rows & Hopts & Hrows).
  rewrite Hroot in Hrows. subst rows. exact Hopts.
Qed.

(** C7, at the failing input. The widget is opened on the root of drive
    [C:], a filesystem root, and its scan runs to the end. [is_root] is
    false there, and the display starts with a parent row that leads
    back to [C:\] itself. *)
Theorem parent_row_at_drive_root :
  let s := exec fs_c (Mount :: replicate 6 (Run 0))
             (DirectoryNavigation_init (win ["Users"]) (win [])) in
  workers s = [mkWorker (Finished Completed) false] /\
  _location s = win [] /\
  parent (_location s) = _location s /\
  is_root s = false /\
  map prompt_name (options s) = [".."; "Users"] /\
  map location (options s) = [win []; win ["Users"]].
Proof. vm_compute. repeat split. Qed.

(** ** C4: assigning the current location *)

(** C4, counterexample. The widget was created for [/a] and is not yet
    mounted; its current location is the working directory [/home].
    Assigning [/home], the current location, starts no scan and posts no
    message, but it is not without effect: the widget now opens on
    [/home] instead of [/a] when it is mounted. *)
Lemma set_location_before_mount :
  let s := nav_created in
  let s' := after (location_setter (posix ["home"])) s in
  resolve (posix ["home"]) = _location s /\
  s' <> s /\
  _location (exec fs_a [Mount] s) = posix ["a"] /\
  _location (exec fs_a [Mount] s') = posix ["home"].
Proof. vm_compute. repeat split. congruence. Qed.

(** C4, amended. Assigning a path that resolves to the current location
    starts no scan and posts no [Changed] message. On a mounted widget it
    changes nothing at all. Before the widget is mounted it replaces the
    initial location, the one the widget opens on when mounted, and
    nothing else. *)
Theorem set_current_location (s : DirectoryNavigation) (p : Path) :
  resolve p = _location s ->
  let s' := after (location_setter p) s in
  fst (location_setter p s) = Ok tt /\
  workers s' = workers s /\
  changed_posted s' = changed_posted s /\
  (_mounted s = true -> s' = s) /\
  (_mounted s = false -> s' = set__initial_location (_location s) s).
Proof.
  intros Hp. unfold after, location_setter, assign__location. rewrite Hp.
  destruct (_mounted s); simpl.
  - destruct (decide (_location s = _location s)) as [_|Hne]; [|contradiction].
    simpl. repeat split. discriminate.
  - repeat split. discriminate.
Qed.

Lemma set_current_location_witness :
  let s := nav_at_a fs_a in
  after (location_setter (posix ["a"; "src"; ".."])) s = s.
Proof.
  intros s.
  refine (proj1 (proj2 (proj2 (proj2
            (set_current_location s (posix ["a"; "src"; ".."]) _)))) _);
    vm_compute; reflexivity.
Defined.

(** ** C9: the drives *)

(** C9, counterexample. On a platform without [os.listdrives] mounting
    the drive widget raises; it does not return with an empty list. *)
Lemma on_mount_without_listdrives :
  fst (drive_navigation.on_mount drive_navigation.NoListdrives
         (drive_navigation.mkDrives [] [])) = Raise AttributeError.
Proof. reflexivity. Qed.

(** C9, amended. When the enumeration of the drives fails, whether
    [os.listdrives] is missing or raises, [on_mount] raises that error
    and adds no row; when it succeeds the drives are added as rows in
    the order the platform gave them. *)
Theorem on_mount_drives (platform : drive_navigation.Platform)
    (s : drive_navigation.DriveNavigation) :
  (forall e, drive_navigation.os_listdrives platform = Raise e ->
             drive_navigation.on_mount platform s = (Raise e, s)) /\
  (forall roots, drive_navigation.os_listdrives platform = Ok roots ->
     fst (drive_navigation.on_mount platform s) = Ok tt /\
     drive_navigation.drive_options (snd (drive_navigation.on_mount platform s))
       = drive_navigation.drive_options s ++ roots).
Proof.
  unfold drive_navigation.on_mount.
  split; [intros e H|intros roots H]; rewrite H; simpl; repeat split.
Qed.

(** ** C2: a scan that is cancelled *)

Lemma scanned_app (fs : FS) (loc : Path) (l1 l2 : list string) :
  forall o, scanned fs loc o (l1 ++ l2)
            = scanned fs loc o l1 ++ scanned fs loc (o + length (scanned fs loc o l1)) l2.
Proof.
  induction l1 as [|n l1 IH]; intros o; simpl.
  - rewrite Nat.add_0_r. reflexivity.
  - destruct (stat fs (joinpath loc n)) as [nd|]; [destruct (node_is_dir nd)|];
      rewrite IH; simpl; try reflexivity.
    rewrite Nat.add_succ_r. reflexivity.
Qed.

Lemma iterdir_names (fs : FS) (p : Path) (children : list Path) :
  iterdir fs p = Some children ->
  exists names, children = map (joinpath p) names.
Proof.
  unfold iterdir. destruct (stat fs p) as [n|]; [|discriminate].
  destruct (node_is_dir n); [|discriminate].
  intros H; inversion H. eexists; reflexivity.
Qed.

Lemma name_joinpath (p : Path) (n : string) : name (joinpath p n) = n.
Proof. unfold name, joinpath. simpl. apply last_last. Qed.

Lemma joinpath_name (p : Path) (n : string) :
  joinpath p (name (joinpath p n)) = joinpath p n.
Proof. rewrite name_joinpath. reflexivity. Qed.

Lemma scan_inv_start (fs : FS) (s : DirectoryNavigation) (w : nat) (wk : Worker) :
  workers s !! w = Some wk -> pc wk = AtClear -> scan_inv fs s w s.
Proof.
  intros Hw Hpc. exists wk. split; [exact Hw|]. rewrite Hpc. repeat split.
Qed.

Lemma scan_inv_cancel (fs : FS) (s0 s : DirectoryNavigation) (w : nat) :
  scan_inv fs s0 w s -> scan_inv fs s0 w (cancel_worker w s).
Proof.
  intros (wk & Hw & H). exists (cancel wk). split.
  - unfold cancel_worker; simpl. rewrite list_lookup_alter_eq, Hw. reflexivity.
  - replace (pc (cancel wk)) with (pc wk); [exact H|].
    unfold cancel. destruct (pc wk) eqn:E; simpl; congruence.
Qed.

Lemma scan_inv_run (fs : FS) (s0 s : DirectoryNavigation) (w : nat) :
  scan_inv fs s0 w s -> scan_inv fs s0 w (run_worker fs w s).
Proof.
  intros (wk & Hw & H). unfold scan_inv, run_worker. rewrite Hw.
  unfold partial_scan, untouched in *.
  destruct (pc wk) as [| |[|entry pending]|pending| |r] eqn:Hpc.
  - (* self._entries = [] *)
    eexists. split; [apply goto_lookup; exact Hw|]. simpl.
    destruct H as [U Hn]. repeat split; try apply U. exact Hn.
  - (* iterdir() *)
    destruct H as (U & He & Hn).
    destruct (iterdir fs (_location s)) as [children|] eqn:Hdir.
    + eexists. split; [apply goto_lookup; exact Hw|]. simpl.
      split; [exact U|].
      assert (Hl : _location s = _location s0) by apply U.
      rewrite Hl in Hdir.
      destruct (iterdir_names _ _ _ Hdir) as [names ->].
      exists [], names. split; [reflexivity|]. split; [exact Hdir|].
      rewrite He. simpl. split; [reflexivity|]. lia.
    + eexists. split; [apply goto_lookup; exact Hw|]. exact I.
  - (* the iterator is exhausted *)
    destruct H as (U & done & rest & Hp & Hscan).
    destruct rest; [|discriminate].
    eexists. split; [apply goto_lookup; exact Hw|]. simpl.
    split; [exact U|]. exists done. exact Hscan.
  - (* one child *)
    destruct H as (U & done & rest & Hp & Hdir & He & Hn).
    assert (Hl : _location s = _location s0) by apply U.
    destruct rest as [|n rest]; [discriminate|].
    simpl in Hp. injection Hp as -> ->.
    assert (Hsplit : done ++ n :: rest = (done ++ [n]) ++ rest)
      by (rewrite <- List.app_assoc; reflexivity).
    assert (Hdone : done ++ [n] <> []) by (destruct done; discriminate).
    unfold is_dir, new_DirectoryEntry, DirectoryEntry_init.
    rewrite Hl, joinpath_name, name_joinpath.
    destruct (stat fs (joinpath (_location s0) n)) as [nd|] eqn:Hst;
      [destruct (node_is_dir nd) eqn:Hd|].
    + eexists. split; [apply goto_lookup; exact Hw|]. simpl.
      split; [exact U|].
      exists (done ++ [n]), rest. split; [exact Hdone|]. split; [reflexivity|].
      split; [rewrite <- Hsplit; exact Hdir|].
      rewrite scanned_app. simpl. rewrite Hst, Hd, <- He, <- Hn.
      split; [reflexivity|]. rewrite length_app. simpl. lia.
    + eexists. split; [apply goto_lookup; exact Hw|]. simpl.
      split; [exact U|].
      exists (done ++ [n]), rest. split; [exact Hdone|]. split; [reflexivity|].
      split; [rewrite <- Hsplit; exact Hdir|].
      rewrite scanned_app. simpl. rewrite Hst, Hd, app_nil_r.
      split; [exact He|exact Hn].
    + eexists. split; [apply goto_lookup; exact Hw|]. simpl.
      split; [exact U|].
      exists (done ++ [n]), rest. split; [exact Hdone|]. split; [reflexivity|].
      split; [rewrite <- Hsplit; exact Hdir|].
      rewrite scanned_app. simpl. rewrite Hst, app_nil_r.
      split; [exact He|exact Hn].
  - (* if worker.is_cancelled: return *)
    destruct H as (U & done & rest & Hdone & Hp & Hscan).
    destruct (is_cancelled wk).
    + eexists. split; [apply goto_lookup; exact Hw|]. simpl.
      split; [exact U|]. exists done, rest. split; assumption.
    + eexists. split; [apply goto_lookup; exact Hw|]. simpl.
      split; [exact U|]. exists done, rest. split; assumption.
  - (* call_from_thread *)
    destruct H as (U & names & Hdir & He & Hn).
    destruct U as (_ & _ & Ul & Uh & Us & _).
    pose proof (_repopulate_display_frame fs s) as F. unfold after in F.
    destruct (_repopulate_display fs s) as [[[]|x] s'] eqn:E; simpl in F;
      destruct F as (_ & _ & Fl & _ & _ & Fe & _ & Fw);
      (eexists; split; [apply goto_lookup; rewrite Fw; exact Hw|]); [|exact I].
    simpl. split; [congruence|]. split.
    + exists names. rewrite app_nil_r in Hdir. split; [exact Hdir|congruence].
    + destruct (_repopulate_display_options fs s s' E) as (rows & Ho & Hr).
      exists rows. rewrite Fe, <- Uh, <- Us. split; [|exact Ho].
      destruct (is_root s); [subst rows; simpl; lia|].
      destruct Hr as (e & -> & _). simpl. lia.
  - exists wk. split; [exact Hw|]. rewrite Hpc. exact H.
Qed.

Lemma scan_inv_runs (fs : FS) (s0 : DirectoryNavigation) (w n : nat) :
  forall s, scan_inv fs s0 w s -> scan_inv fs s0 w (exec fs (replicate n (Run w)) s).
Proof.
  induction n as [|n IH]; intros s H; simpl.
  - exact H.
  - apply IH. apply scan_inv_run. exact H.
Qed.

(** Whatever else goes on, a statement of a worker that comes before the
    hand-over to [_repopulate_display] writes neither the rows, nor the
    highlight, nor the location, nor the flags. *)
Lemma run_worker_untouched (fs : FS) (s : DirectoryNavigation) (w : nat) (wk : Worker) :
  workers s !! w = Some wk -> pc wk <> AtRepopulate ->
  untouched s (run_worker fs w s).
Proof.
  intros Hw Hpc. unfold run_worker. rewrite Hw.
  destruct (pc wk) as [| |[|entry pending]|pending| |r]; try (repeat split; fail).
  - destruct (iterdir fs (_location s)); repeat split.
  - destruct (is_dir fs entry); [|repeat split].
    unfold new_DirectoryEntry. destruct (DirectoryEntry_init fs _ _); repeat split.
  - destruct (is_cancelled wk); repeat split.
  - contradiction.
Qed.

(** The cache of a finished scan lists the location. *)
Lemma scanned_listing (fs : FS) (loc : Path) (names : list string) :
  forall o, map location (scanned fs loc o names)
            = map resolve (List.filter (is_dir fs) (map (joinpath loc) names)).
Proof.
  induction names as [|n names IH]; intros o; simpl; [reflexivity|].
  unfold is_dir at 1.
  destruct (stat fs (joinpath loc n)) as [nd|]; [destruct (node_is_dir nd)|];
    simpl; rewrite IH; reflexivity.
Qed.

(** X7. A scan that nothing disturbs and that runs to completion leaves
    the listing of the location in the cache, that is the subdirectories
    of the location in the order of enumeration and no regular file, and
    puts the cache on display as the flags show it, below at most one
    parent row; the location is the one it started with. *)
Lemma undisturbed_scan (fs : FS) (s : DirectoryNavigation) (w : nat) (wk : Worker) (n : nat) :
  workers s !! w = Some wk ->
  pc wk = AtClear ->
  let s' := exec fs (replicate n (Run w)) s in
  pc <$> workers s' !! w = Some (Finished Completed) ->
  _location s' = _location s /\
  map location (_entries s') = listing fs (_location s) /\
  exists parent_rows,
    length parent_rows <= 1 /\
    options s' = parent_rows ++ shown (show_hidden s) (sort_display s) (_entries s').
Proof.
  intros Hw Hpc s' Hend.
  assert (Hinv : scan_inv fs s w s').
  { apply scan_inv_runs. eapply scan_inv_start; eassumption. }
  destruct Hinv as (wk' & Hw' & H).
  rewrite Hw' in Hend. simpl in Hend. injection Hend as Hend. rewrite Hend in H.
  destruct H as (Hl & (names & Hdir & He) & Hrows).
  split; [exact Hl|]. split; [|exact Hrows].
  unfold listing. rewrite Hdir, He. apply scanned_listing.
Qed.

(** Every scan ends: a worker that is given enough turns reaches the end
    of [_load], one way or another. *)
Lemma scan_loop_ends (fs : FS) (w : nat) (pending : list Path) :
  forall s wk, workers s !! w = Some wk -> pc wk = AtNext pending ->
    exists n r, pc <$> workers (exec fs (replicate n (Run w)) s) !! w = Some (Finished r).
Proof.
  induction pending as [|entry pending IH]; intros s wk Hw Hpc.
  - (* exhausted: hand over, then finish *)
    pose proof (_repopulate_display_frame fs (goto w AtRepopulate s)) as F.
    unfold after in F.
    destruct (_repopulate_display fs (goto w AtRepopulate s)) as [[[]|x] s'] eqn:E;
      simpl in F; destruct F as (_ & _ & _ & _ & _ & _ & _ & Fw).
    + exists 2, Completed. simpl. unfold run_worker at 2. rewrite Hw, Hpc.
      unfold run_worker. erewrite goto_lookup by exact Hw. simpl pc. cbv iota.
      rewrite E. erewrite goto_lookup; [reflexivity|]. rewrite Fw.
      apply goto_lookup. exact Hw.
    + exists 2, (Failed x). simpl. unfold run_worker at 2. rewrite Hw, Hpc.
      unfold run_worker. erewrite goto_lookup by exact Hw. simpl pc. cbv iota.
      rewrite E. erewrite goto_lookup; [reflexivity|]. rewrite Fw.
      apply goto_lookup. exact Hw.
  - (* one child, then the cancellation check *)
    assert (Hcheck : forall s1 wk1, workers s1 !! w = Some wk1 -> pc wk1 = AtCheck pending ->
              exists n r, pc <$> workers (exec fs (replicate n (Run w)) s1) !! w
                          = Some (Finished r)).
    { intros s1 wk1 Hw1 Hpc1. destruct (is_cancelled wk1) eqn:Hc.
      - exists 1, Returned. simpl. unfold run_worker. rewrite Hw1, Hpc1, Hc.
        erewrite goto_lookup by exact Hw1. reflexivity.
      - destruct (IH (goto w (AtNext pending) s1) (mkWorker (AtNext pending) (is_cancelled wk1)))
          as (n & r & Hn); [apply goto_lookup; exact Hw1|reflexivity|].
        exists (S n), r. simpl. unfold run_worker at 1. rewrite Hw1, Hpc1, Hc. exact Hn. }
    assert (Hstep : exists s1 wk1, run_worker fs w s = s1 /\ workers s1 !! w = Some wk1 /\
              (pc wk1 = AtCheck pending \/ exists x, pc wk1 = Finished (Failed x))).
    { unfold run_worker. rewrite Hw, Hpc.
      destruct (is_dir fs entry).
      - destruct (new_DirectoryEntry fs _ s) as [[e|x] s1] eqn:E.
        + assert (Hw1 : workers s1 = workers s).
          { unfold new_DirectoryEntry in E. destruct (DirectoryEntry_init fs _ _);
              inversion E; reflexivity. }
          eexists _, _. split; [reflexivity|].
          split; [apply goto_lookup; simpl; rewrite Hw1; exact Hw|left; reflexivity].
        + assert (Hw1 : workers s1 = workers s).
          { unfold new_DirectoryEntry in E. destruct (DirectoryEntry_init fs _ _);
              inversion E; reflexivity. }
          eexists _, _. split; [reflexivity|].
          split; [apply goto_lookup; rewrite Hw1; exact Hw|right; eexists; reflexivity].
      - eexists _, _. split; [reflexivity|].
        split; [apply goto_lookup; exact Hw|left; reflexivity]. }
    destruct Hstep as (s1 & wk1 & Hrun & Hw1 & [Hpc1|[x Hpc1]]).
    + destruct (Hcheck s1 wk1 Hw1 Hpc1) as (n & r & Hn).
      exists (S n), r. simpl. rewrite Hrun. exact Hn.
    + exists 1, (Failed x). simpl. rewrite Hrun, Hw1. simpl. rewrite Hpc1. reflexivity.
Qed.

Lemma scan_ends (fs : FS) (s : DirectoryNavigation) (w : nat) (wk : Worker) :
  workers s !! w = Some wk -> pc wk = AtClear ->
  exists n r, pc <$> workers (exec fs (replicate n (Run w)) s) !! w = Some (Finished r).
Proof.
  intros Hw Hpc.
  destruct (iterdir fs (_location s)) as [children|] eqn:Hdir.
  - destruct (scan_loop_ends fs w children
                (goto w (AtNext children) (goto w AtIterdir (set__entries [] s)))
                (mkWorker (AtNext children) (is_cancelled wk)))
      as (n & r & Hn).
    + erewrite goto_lookup by (apply goto_lookup; exact Hw). reflexivity.
    + reflexivity.
    + exists (S (S n)), r. simpl. unfold run_worker at 2. rewrite Hw, Hpc.
      unfold run_worker at 1. erewrite goto_lookup by exact Hw. simpl pc. cbv iota.
      change (_location (goto w AtIterdir (set__entries [] s))) with (_location s).
      rewrite Hdir. exact Hn.
  - exists 2, (Failed OSError). simpl. unfold run_worker at 2. rewrite Hw, Hpc.
    unfold run_worker. erewrite goto_lookup by exact Hw. simpl pc. cbv iota.
    change (_location (goto w AtIterdir (set__entries [] s))) with (_location s).
    rewrite Hdir. erewrite goto_lookup; [reflexivity|]. apply goto_lookup. exact Hw.
Qed.

(** C2, counterexample. The widget shows [/a] and is sent to [/c];
    [before] is the state in which the scan of [/c] starts. The scan
    clears the cache, lists [/c] and appends the entry for [/c/data];
    then the widget is sent on to [/b], which cancels the scan, and the
    scan returns at its cancellation check. The cache now holds what the
    cancelled scan found, not what it held before the scan started. *)
Lemma cancelled_scan_changes_cache :
  let before := exec fs_abc [SetLocation (posix ["c"])] (nav_at_a fs_abc) in
  let s := exec fs_abc [Run 1; Run 1; Run 1; SetLocation (posix ["b"]); Run 1] before in
  workers before !! 1 = Some (mkWorker AtClear false) /\
  workers s !! 1 = Some (mkWorker (Finished Returned) true) /\
  map location (_entries before)
    = [posix ["a"; ".git"]; posix ["a"; "src"]; posix ["a"; "docs"]] /\
  map location (_entries s) = [posix ["c"; "data"]] /\
  _entries s <> _entries before.
Proof. vm_compute. repeat split. congruence. Qed.

(** The case of a scan on its own. Take a scan that runs with nothing
    else happening to the widget, is cancelled at some moment (after [n]
    of its statements) and returns at its cancellation check. It has not
    changed the displayed rows, the highlight or the current location.
    The cache is not what it was: it holds the entries of the
    directories among the first [k] children of the location, [k] at
    least one, that the scan went through before it saw the
    cancellation. *)
Theorem cancelled_scan_effect (fs : FS) (s : DirectoryNavigation) (w : nat) (wk : Worker)
    (n m : nat) :
  workers s !! w = Some wk ->
  pc wk = AtClear ->
  let s' := exec fs (replicate m (Run w))
              (cancel_worker w (exec fs (replicate n (Run w)) s)) in
  pc <$> workers s' !! w = Some (Finished Returned) ->
  options s' = options s /\
  highlighted s' = highlighted s /\
  _location s' = _location s /\
  exists names k,
    iterdir fs (_location s) = Some (map (joinpath (_location s)) names) /\
    0 < k <= length names /\
    _entries s' = scanned fs (_location s) (next_oid s) (take k names).
Proof.
  intros Hw Hpc s' Hret.
  assert (Hinv : scan_inv fs s w s').
  { apply scan_inv_runs, scan_inv_cancel, scan_inv_runs.
    eapply scan_inv_start; eassumption. }
  destruct Hinv as (wk' & Hw' & H).
  rewrite Hw' in Hret. simpl in Hret. injection Hret as Hret. rewrite Hret in H.
  destruct H as (U & done & rest & Hdone & Hdir & He & _).
  destruct U as (Uo & Uh & Ul & _).
  repeat split; try assumption.
  exists (done ++ rest), (length done). split; [exact Hdir|]. split.
  - rewrite length_app. destruct done; [contradiction|simpl; lia].
  - rewrite take_app_length. exact He.
Qed.

Lemma cancelled_scan_effect_witness :
  let s := exec fs_abc [SetLocation (posix ["b"])] (nav_at_a fs_abc) in
  let s' := exec fs_abc (replicate 3 (Run 1))
              (cancel_worker 1 (exec fs_abc (replicate 3 (Run 1)) s)) in
  pc <$> workers s' !! 1 = Some (Finished Returned) /\
  options s' = options s /\
  map location (_entries s) <> [] /\
  _entries s' = [].
Proof.
  intros s s'.
  assert (H : pc <$> workers s' !! 1 = Some (Finished Returned)) by (vm_compute; reflexivity).
  split; [exact H|].
  destruct (cancelled_scan_effect fs_abc s 1 (mkWorker AtClear false) 3 3
              ltac:(vm_compute; reflexivity) eq_refl H) as (Ho & _ & _ & _).
  split; [exact Ho|]. vm_compute. split; [discriminate|reflexivity].
Defined.

(** A statement of a worker changes nothing about the workers but where
    that worker stands, and a worker that has ended stays as it is. *)
Lemma run_worker_workers (fs : FS) (w : nat) (s : DirectoryNavigation) :
  workers (run_worker fs w s) = workers s \/
  exists wk p, workers s !! w = Some wk /\ (forall r, pc wk <> Finished r) /\
    workers (run_worker fs w s)
      = alter (fun wk => mkWorker p (is_cancelled wk)) w (workers s).
Proof.
  unfold run_worker. destruct (workers s !! w) as [wk|] eqn:Hw; [|left; reflexivity].
  destruct (pc wk) as [| |[|entry pending]|pending| |r] eqn:Hpc;
    [| | | | | |left; reflexivity]; right; exists wk.
  - eexists. split; [reflexivity|]. split; [congruence|reflexivity].
  - destruct (iterdir fs (_location s));
      (eexists; split; [reflexivity|]; split; [congruence|reflexivity]).
  - eexists. split; [reflexivity|]. split; [congruence|reflexivity].
  - destruct (is_dir fs entry).
    + unfold new_DirectoryEntry. destruct (DirectoryEntry_init fs _ _);
        (eexists; split; [reflexivity|]; split; [congruence|reflexivity]).
    + eexists; split; [reflexivity|]; split; [congruence|reflexivity].
  - destruct (is_cancelled wk);
      (eexists; split; [reflexivity|]; split; [congruence|reflexivity]).
  - pose proof (_repopulate_display_frame fs s) as F. unfold after in F.
    destruct (_repopulate_display fs s) as [[[]|x] s']; simpl in F;
      destruct F as (_ & _ & _ & _ & _ & _ & _ & Fw);
      (eexists; split; [reflexivity|]; split; [congruence|]);
      unfold goto; simpl; rewrite Fw; reflexivity.
Qed.

(** Another event leaves a worker where it stands. *)
Lemma step_worker (fs : FS) (s : DirectoryNavigation) (ev : Event) (w : nat) (wk : Worker) :
  workers s !! w = Some wk ->
  exists wk', workers (step fs s ev) !! w = Some wk' /\ (pc wk' = pc wk \/ ev = Run w).
Proof.
  intros Hw.
  assert (Hassign : forall v s0, workers s0 = workers s ->
            exists wk', workers (after (assign__location v) s0) !! w = Some wk' /\
                        pc wk' = pc wk).
  { intros v s0 E. unfold after, assign__location.
    destruct (decide (_location s0 = v)); simpl.
    - exists wk. rewrite E. split; [exact Hw|reflexivity].
    - exists (cancel wk). rewrite E. split.
      + rewrite lookup_app_l by (rewrite length_map; eapply lookup_lt_Some; exact Hw).
        rewrite list_lookup_fmap, Hw. reflexivity.
      + unfold cancel. destruct (pc wk) eqn:Ep; simpl; congruence. }
  assert (Hproj : forall s0, workers s0 = workers s ->
            exists wk', workers (after (_repopulate_display fs) s0) !! w = Some wk' /\
                        pc wk' = pc wk).
  { intros s0 E. pose proof (_repopulate_display_frame fs s0) as F. cbv zeta in F.
    destruct F as (_ & _ & _ & _ & _ & _ & _ & Fw).
    exists wk. rewrite Fw, E. split; [exact Hw|reflexivity]. }
  destruct ev as [|p|i| |v|w']; simpl.
  - destruct (Hassign (_initial_location s) (set__mounted true s) eq_refl) as (wk' & H1 & H2).
    exists wk'. split; [exact H1|left; exact H2].
  - unfold after, location_setter. destruct (_mounted s).
    + destruct (Hassign (resolve p) s eq_refl) as (wk' & H1 & H2).
      exists wk'. split; [exact H1|left; exact H2].
    + exists wk. split; [exact Hw|left; reflexivity].
  - unfold after, _on_option_list_option_selected. destruct (options s !! i) as [e|].
    + destruct (Hassign (location e) s eq_refl) as (wk' & H1 & H2).
      exists wk'. split; [exact H1|left; exact H2].
    + exists wk. split; [exact Hw|left; reflexivity].
  - unfold after, toggle_hidden, assign_show_hidden. destruct (decide _).
    + exists wk. split; [exact Hw|left; reflexivity].
    + destruct (Hproj (store_show_hidden (negb (show_hidden s)) s) eq_refl) as (wk' & H1 & H2).
      exists wk'. split; [exact H1|left; exact H2].
  - unfold after, assign_sort_display. destruct (decide _).
    + exists wk. split; [exact Hw|left; reflexivity].
    + destruct (Hproj (store_sort_display v s) eq_refl) as (wk' & H1 & H2).
      exists wk'. split; [exact H1|left; exact H2].
  - destruct (decide (w' = w)) as [->|Hne].
    + destruct (run_worker_workers fs w s) as [->|(wk0 & p & _ & _ & ->)].
      * exists wk. split; [exact Hw|right; reflexivity].
      * rewrite list_lookup_alter_eq, Hw. eexists. split; [reflexivity|right; reflexivity].
    + destruct (run_worker_workers fs w' s) as [->|(wk0 & p & _ & _ & ->)].
      * exists wk. split; [exact Hw|left; reflexivity].
      * rewrite list_lookup_alter_ne by congruence.
        exists wk. split; [exact Hw|left; reflexivity].
Qed.

(** A worker that has left the loop does not come back to it. *)
Lemma run_worker_handed_over (fs : FS) (s : DirectoryNavigation) (w : nat) (wk : Worker) :
  workers s !! w = Some wk -> handed_over (pc wk) ->
  exists wk', workers (run_worker fs w s) !! w = Some wk' /\ handed_over (pc wk').
Proof.
  intros Hw Hh. unfold run_worker. rewrite Hw.
  destruct (pc wk) as [| |pending|pending| |r] eqn:Hpc; try contradiction.
  - pose proof (_repopulate_display_frame fs s) as F. unfold after in F.
    destruct (_repopulate_display fs s) as [[[]|x] s']; simpl in F;
      destruct F as (_ & _ & _ & _ & _ & _ & _ & Fw);
      (eexists; split; [apply goto_lookup; rewrite Fw; exact Hw|exact I]).
  - exists wk. split; [exact Hw|]. rewrite Hpc. exact Hh.
Qed.

Lemma handed_over_stays (fs : FS) (w : nat) (schedule : list Event) :
  forall s wk, workers s !! w = Some wk -> handed_over (pc wk) ->
    exists wk', workers (exec fs schedule s) !! w = Some wk' /\ handed_over (pc wk').
Proof.
  induction schedule as [|ev evs IH]; intros s wk Hw Hh; simpl.
  - exists wk. split; assumption.
  - destruct (step_worker fs s ev w wk Hw) as (wk' & Hw' & [Hpc| ->]).
    + apply (IH _ wk' Hw'). rewrite Hpc. exact Hh.
    + destruct (run_worker_handed_over fs s w wk Hw Hh) as (wk2 & Hw2 & Hh2).
      apply (IH _ wk2 Hw2 Hh2).
Qed.

(** What one statement of a worker does to the cache: nothing, or it
    empties it, or it appends one entry. *)
Lemma run_worker_cache (fs : FS) (w : nat) (s : DirectoryNavigation) :
  _entries (run_worker fs w s) = _entries s \/
  _entries (run_worker fs w s) = [] \/
  exists e, _entries (run_worker fs w s) = _entries s ++ [e].
Proof.
  unfold run_worker. destruct (workers s !! w) as [wk|]; [|left; reflexivity].
  destruct (pc wk) as [| |[|entry pending]|pending| |r]; try (left; reflexivity).
  - right. left. reflexivity.
  - destruct (iterdir fs (_location s)); left; reflexivity.
  - destruct (is_dir fs entry); [|left; reflexivity].
    unfold new_DirectoryEntry. destruct (DirectoryEntry_init fs _ _) as [e|].
    + right. right. exists e. reflexivity.
    + left. reflexivity.
  - destruct (is_cancelled wk); left; reflexivity.
  - pose proof (_repopulate_display_frame fs s) as F. unfold after in F.
    destruct (_repopulate_display fs s) as [[[]|x] s']; simpl in F;
      destruct F as (_ & _ & _ & _ & _ & Fe & _); left; exact Fe.
Qed.

Lemma exec_app (fs : FS) (l1 l2 : list Event) (s : DirectoryNavigation) :
  exec fs (l1 ++ l2) s = exec fs l2 (exec fs l1 s).
Proof. unfold exec. apply fold_left_app. Qed.

(** C2, amended. Take a scan that starts in [s] and, in any schedule of
    handlers and of statements of this and of other workers, ends by the
    [return] at its cancellation check. None of its statements has
    changed the displayed rows, the highlight, the current location, the
    flags or the messages posted: the scan never reached the display.
    The cache is not left as it was before the scan started. One of the
    statements of the scan emptied it, and every statement of the scan
    left the cache as it found it, emptied it, or appended one entry to
    it, whatever the cache held at that moment. *)
Theorem cancelled_scan_writes (fs : FS) (s : DirectoryNavigation) (w : nat) (wk : Worker)
    (schedule : list Event) :
  workers s !! w = Some wk ->
  pc wk = AtClear ->
  pc <$> workers (exec fs schedule s) !! w = Some (Finished Returned) ->
  (exists pre post,
     schedule = pre ++ Run w :: post /\
     _entries (exec fs (pre ++ [Run w]) s) = []) /\
  (forall pre post,
     schedule = pre ++ Run w :: post ->
     let s1 := exec fs pre s in
     let s2 := exec fs (pre ++ [Run w]) s in
     untouched s1 s2 /\
     (_entries s2 = _entries s1 \/ _entries s2 = [] \/
      exists e, _entries s2 = _entries s1 ++ [e])).
Proof.
  intros Hw Hpc Hend. split.
  - clear -Hw Hpc Hend. revert s wk Hw Hpc Hend.
    induction schedule as [|ev evs IH]; intros s wk Hw Hpc Hend.
    + simpl in Hend. rewrite Hw in Hend. simpl in Hend. congruence.
    + destruct (decide (ev = Run w)) as [->|Hne].
      * exists [], evs. split; [reflexivity|]. simpl.
        unfold run_worker. rewrite Hw, Hpc. reflexivity.
      * destruct (step_worker fs s ev w wk Hw) as (wk' & Hw' & [Hpc'|E]); [|contradiction].
        destruct (IH (step fs s ev) wk' Hw' ltac:(congruence) Hend)
          as (pre & post & -> & He).
        exists (ev :: pre), post. split; [reflexivity|exact He].
  - intros pre post -> s1 s2.
    assert (Hs2 : s2 = run_worker fs w s1).
    { unfold s2, s1. rewrite exec_app. reflexivity. }
    rewrite Hs2. split; [|apply run_worker_cache].
    destruct (workers s1 !! w) as [wk1|] eqn:Hw1.
    + destruct (decide (pc wk1 = AtRepopulate)) as [E|Hne].
      * exfalso.
        destruct (handed_over_stays fs w (Run w :: post) s1 wk1 Hw1)
          as (wk2 & Hw2 & Hh2); [rewrite E; exact I|].
        rewrite exec_app in Hend. fold s1 in Hend. rewrite Hw2 in Hend.
        simpl in Hend. injection Hend as Hend. rewrite Hend in Hh2. exact Hh2.
      * exact (run_worker_untouched fs s1 w wk1 Hw1 Hne).
    + unfold run_worker. rewrite Hw1. repeat split.
Qed.

Lemma cancelled_scan_writes_witness :
  let s := exec fs_abc [SetLocation (posix ["c"])] (nav_at_a fs_abc) in
  let s1 := exec fs_abc [Run 1; Run 1; SetLocation (posix ["b"]); Run 2] s in
  let s2 := exec fs_abc ([Run 1; Run 1; SetLocation (posix ["b"]); Run 2] ++ [Run 1]) s in
  map location (_entries s2) = [posix ["b"; "data"]] /\
  untouched s1 s2 /\
  (_entries s2 = _entries s1 \/ _entries s2 = [] \/
   exists e, _entries s2 = _entries s1 ++ [e]).
Proof.
  intros s s1 s2. split; [vm_compute; reflexivity|].
  exact (proj2 (cancelled_scan_writes fs_abc s 1 (mkWorker AtClear false)
                  [Run 1; Run 1; SetLocation (posix ["b"]); Run 2; Run 1; Run 1]
                  ltac:(vm_compute; reflexivity) eq_refl ltac:(vm_compute; reflexivity))
           [Run 1; Run 1; SetLocation (posix ["b"]); Run 2] [Run 1] eq_refl).
Defined.

(** ** C1: a scan that is superseded *)

(** C1, at the failing input. The scan of [/c] is superseded by the scan
    of [/b] and returns at its cancellation check; the scan of [/b] runs
    to completion. Yet the cache does not hold the listing of [/b], whose
    only subdirectory is [/b/src]: the superseded scan appended an entry
    after the newer scan had emptied the cache, and that entry, for the
    regular file [/b/data], is in the cache and on display. *)
Theorem superseded_scan_reaches_cache :
  let s := exec fs_abc race_schedule (nav_at_a fs_abc) in
  workers s = [ mkWorker (Finished Completed) false;
                mkWorker (Finished Returned) true;
                mkWorker (Finished Completed) false ] /\
  _location s = posix ["b"] /\
  listing fs_abc (posix ["b"]) = [posix ["b"; "src"]] /\
  map location (_entries s) = [posix ["b"; "data"]; posix ["b"; "src"]] /\
  map prompt_name (options s) = [".."; "data"; "src"] /\
  map location (_entries s) <> listing fs_abc (_location s).
Proof. vm_compute. repeat split. congruence. Qed.

(** Left alone, the scan of [/b] fills the cache with the listing. *)
Example undisturbed_scan_of_b :
  let s := exec fs_abc (SetLocation (posix ["b"]) :: replicate 8 (Run 1)) (nav_at_a fs_abc) in
  workers s !! 1 = Some (mkWorker (Finished Completed) false) /\
  map location (_entries s) = listing fs_abc (_location s).
Proof. vm_compute. repeat split. Qed.

(** ** C10: equality of entries *)

Lemma objects_ok_incl (n n' : nat) (l l' : list DirectoryEntry) :
  objects_ok n l -> incl l' l -> n <= n' -> objects_ok n' l'.
Proof.
  intros [Hb Hf] Hi Hn. split.
  - intros e He. specialize (Hb e (Hi e He)). lia.
  - intros e1 e2 H1 H2. apply Hf; apply Hi; assumption.
Qed.

Lemma objects_ok_fresh (n : nat) (l l' : list DirectoryEntry) (e : DirectoryEntry) :
  objects_ok n l -> oid e = n -> incl l' (e :: l) -> objects_ok (S n) l'.
Proof.
  intros [Hb Hf] He Hi. split.
  - intros x Hx. destruct (Hi x Hx) as [<-|Hx']; [lia|]. specialize (Hb x Hx'). lia.
  - intros e1 e2 H1 H2 Ho.
    destruct (Hi e1 H1) as [<-|H1']; destruct (Hi e2 H2) as [<-|H2'].
    + reflexivity.
    + specialize (Hb e2 H2'). lia.
    + specialize (Hb e1 H1'). lia.
    + apply Hf; assumption.
Qed.

Lemma shown_incl (show sort : bool) (l : list DirectoryEntry) : incl (shown show sort l) l.
Proof. intros e He. apply shown_In in He. tauto. Qed.

Lemma Wf_repopulate (fs : FS) (s : DirectoryNavigation) :
  Wf s -> Wf (after (_repopulate_display fs) s).
Proof.
  unfold Wf, after, live. intros H. rewrite _repopulate_display_eq.
  destruct (is_root s); [|destruct (parent_row fs s) as [e|] eqn:E]; simpl.
  - eapply objects_ok_incl; [exact H| |lia].
    apply incl_app; [apply incl_appl, incl_refl|].
    apply incl_appl, shown_incl.
  - apply parent_row_fields in E. destruct E as [E _].
    eapply objects_ok_fresh; [exact H|exact E|].
    apply incl_app; [apply incl_tl, incl_appl, incl_refl|].
    apply incl_cons; [left; reflexivity|].
    apply incl_tl, incl_appl, shown_incl.
  - eapply objects_ok_incl; [exact H| |lia].
    rewrite app_nil_r. apply incl_appl, incl_refl.
Qed.

Lemma Wf_goto (w : nat) (p : Pc) (s : DirectoryNavigation) : Wf s -> Wf (goto w p s).
Proof. intros H; exact H. Qed.

Lemma Wf_run_worker (fs : FS) (w : nat) (s : DirectoryNavigation) :
  Wf s -> Wf (run_worker fs w s).
Proof.
  intros H. unfold run_worker.
  destruct (workers s !! w) as [wk|]; [|exact H].
  destruct (pc wk) as [| |[|entry pending]|pending| |r]; try exact H.
  - apply Wf_goto. unfold Wf, live in *. simpl.
    eapply objects_ok_incl; [exact H| |lia]. apply incl_appr, incl_refl.
  - destruct (iterdir fs (_location s)); exact H.
  - destruct (is_dir fs entry); [|exact H].
    unfold new_DirectoryEntry.
    destruct (DirectoryEntry_init fs (next_oid s) _) as [e|] eqn:E; [|exact H].
    apply Wf_goto. unfold Wf, live in *. simpl.
    assert (Ho : oid e = next_oid s).
    { unfold DirectoryEntry_init in E. destruct (stat fs _); [|discriminate].
      inversion E; reflexivity. }
    eapply objects_ok_fresh; [exact H|exact Ho|].
    apply incl_app; [apply incl_app|].
    + apply incl_tl, incl_appl, incl_refl.
    + apply incl_cons; [left; reflexivity|apply incl_nil_l].
    + apply incl_tl, incl_appr, incl_refl.
  - destruct (is_cancelled wk); exact H.
  - pose proof (Wf_repopulate fs s H) as H'. unfold after in H'.
    destruct (_repopulate_display fs s) as [[[]|x] s']; apply Wf_goto; exact H'.
Qed.

Lemma Wf_assign__location (v : Path) (s : DirectoryNavigation) :
  Wf s -> Wf (after (assign__location v) s).
Proof.
  intros H. unfold after, assign__location.
  destruct (decide (_location s = v)); exact H.
Qed.

Lemma Wf_step (fs : FS) (s : DirectoryNavigation) (ev : Event) :
  Wf s -> Wf (step fs s ev).
Proof.
  intros H. destruct ev as [|p|i| |v|w]; simpl.
  - apply (Wf_assign__location (_initial_location s) (set__mounted true s)). exact H.
  - unfold after, location_setter. destruct (_mounted s); [|exact H].
    apply Wf_assign__location. exact H.
  - unfold after, _on_option_list_option_selected.
    destruct (options s !! i); [|exact H]. apply Wf_assign__location. exact H.
  - unfold after, toggle_hidden, assign_show_hidden.
    destruct (decide _); [exact H|].
    apply (Wf_repopulate fs (store_show_hidden _ s)). exact H.
  - unfold after, assign_sort_display.
    destruct (decide _); [exact H|].
    apply (Wf_repopulate fs (store_sort_display _ s)). exact H.
  - apply Wf_run_worker. exact H.
Qed.

Lemma Wf_exec (fs : FS) (schedule : list Event) :
  forall s, Wf s -> Wf (exec fs schedule s).
Proof.
  induction schedule as [|ev evs IH]; intros s H; simpl.
  - exact H.
  - apply IH, Wf_step, H.
Qed.

Lemma Wf_init (cwd loc : Path) : Wf (DirectoryNavigation_init cwd loc).
Proof. split; [intros e []|intros e1 e2 []]. Qed.

(** C10, counterexample. The cache of the widget at [/a] holds the entry
    for [/a/src]. A second entry constructed from [/a/src] has the same
    resolved path and is a different object: the two are not equal. *)
Lemma same_path_entries_not_equal :
  let s := nav_at_a fs_a in
  exists e1 e2 s',
    _entries s !! 1 = Some e1 /\
    new_DirectoryEntry fs_a (posix ["a"; "src"]) s = (Ok e2, s') /\
    location e1 = location e2 /\
    entry_eq e1 e2 = false.
Proof. vm_compute. do 3 eexists. repeat split. Qed.

(** C10, amended. Equality of entries is identity of the object. Among
    the entries a widget holds at any point of any run, two are equal
    exactly when they are one and the same entry, so equal entries have
    equal resolved paths; the converse fails, for an entry that is newly
    constructed, from whatever path, equals none of them. *)
Theorem entry_equality_is_identity (fs : FS) (cwd loc : Path) (schedule : list Event)
    (e1 e2 : DirectoryEntry) :
  let s := exec fs schedule (DirectoryNavigation_init cwd loc) in
  In e1 (live s) ->
  In e2 (live s) ->
  (entry_eq e1 e2 = true <-> e1 = e2) /\
  (entry_eq e1 e2 = true -> location e1 = location e2) /\
  (forall p e s', new_DirectoryEntry fs p s = (Ok e, s') -> entry_eq e e1 = false).
Proof.
  intros s H1 H2.
  assert (H : Wf s) by apply Wf_exec, Wf_init.
  destruct H as [Hb Hf]. unfold entry_eq.
  assert (Hiff : Nat.eqb (oid e1) (oid e2) = true <-> e1 = e2).
  { rewrite Nat.eqb_eq. split; [apply Hf; assumption|intros ->; reflexivity]. }
  split; [exact Hiff|]. split.
  - intros E. apply Hiff in E. rewrite E. reflexivity.
  - intros p e s'. unfold new_DirectoryEntry, DirectoryEntry_init.
    destruct (stat fs p); [|discriminate].
    intros E; inversion E; subst; simpl.
    apply Nat.eqb_neq. specialize (Hb e1 H1). lia.
Qed.

Lemma entry_equality_is_identity_witness :
  let s := exec fs_a (Mount :: replicate 10 (Run 0))
             (DirectoryNavigation_init (posix ["home"]) (posix ["a"])) in
  let e1 := mkEntry 1 (posix ["a"; "src"]) "src" 40 in
  let e2 := mkEntry 2 (posix ["a"; "docs"]) "docs" 50 in
  In e1 (live s) /\ In e2 (live s) /\ (entry_eq e1 e2 = true <-> e1 = e2).
Proof.
  intros s e1 e2.
  assert (H1 : In e1 (live s)) by (vm_compute; right; left; reflexivity).
  assert (H2 : In e2 (live s)) by (vm_compute; right; right; left; reflexivity).
  split; [exact H1|]. split; [exact H2|].
  exact (proj1 (entry_equality_is_identity fs_a (posix ["home"]) (posix ["a"])
                  (Mount :: replicate 10 (Run 0)) e1 e2 H1 H2)).
Defined.

(** * Further properties *)

(** ** Mounting and the locations assigned before *)

(** X1. Mounting opens the initial location and leaves cache and rows
    alone. A scan is started, and [Changed] posted, only when the initial
    location differs from the value [_location] has by default: a widget
    created for that very directory starts no scan when it is mounted. *)
Theorem on_mount_effect (s : DirectoryNavigation) :
  let s' := after on_mount s in
  fst (on_mount s) = Ok tt /\
  _mounted s' = true /\
  _location s' = _initial_location s /\
  _entries s' = _entries s /\
  options s' = options s /\
  (_initial_location s = _location s ->
     workers s' = workers s /\ changed_posted s' = changed_posted s) /\
  (_initial_location s <> _location s ->
     workers s' = map cancel (workers s) ++ [mkWorker AtClear false] /\
     changed_posted s' = S (changed_posted s)).
Proof.
  unfold after, on_mount, bind, modify, get, assign__location. simpl.
  destruct (decide (_location s = _initial_location s)) as [E|Hne]; simpl.
  - repeat split; try congruence.
  - repeat split; try congruence.
Qed.

(** A widget created for the directory it has by default never scans:
    mounted and given any number of turns, it shows no row. *)
Example mounted_on_default_location :
  let s := exec fs_a (Mount :: replicate 10 (Run 0))
             (DirectoryNavigation_init (posix ["a"]) (posix ["a"])) in
  workers s = [] /\ options s = [] /\ changed_posted s = 0.
Proof. vm_compute. repeat split. Qed.

Lemma last_cons {A : Type} (l : list A) :
  forall a d, List.last (a :: l) d = List.last l a.
Proof.
  induction l as [|b l IH]; intros a d; [reflexivity|].
  change (List.last (a :: b :: l) d) with (List.last (b :: l) d).
  rewrite (IH b d), (IH b a). reflexivity.
Qed.

(** X2. Before the widget is mounted, assignments to [location] start
    no scan and post no message, whatever is assigned and how often; they
    only replace the initial location, and the last one assigned is the
    one that counts. *)
Theorem locations_before_mount (fs : FS) (ps : list Path) :
  forall s, _mounted s = false ->
  let s' := exec fs (map SetLocation ps) s in
  _mounted s' = false /\
  workers s' = workers s /\
  changed_posted s' = changed_posted s /\
  _location s' = _location s /\
  _entries s' = _entries s /\
  options s' = options s /\
  _initial_location s' = List.last (map resolve ps) (_initial_location s).
Proof.
  induction ps as [|p ps IH]; intros s Hm; cbv zeta.
  - simpl. repeat split. exact Hm.
  - assert (Hstep : after (location_setter p) s = set__initial_location (resolve p) s).
    { unfold after, location_setter. rewrite Hm. reflexivity. }
    change (exec fs (map SetLocation (p :: ps)) s)
      with (exec fs (map SetLocation ps) (after (location_setter p) s)).
    change (map resolve (p :: ps)) with (resolve p :: map resolve ps).
    rewrite Hstep, last_cons.
    destruct (IH (set__initial_location (resolve p) s) Hm)
      as (H1 & H2 & H3 & H4 & H5 & H6 & H7).
    repeat split; assumption.
Qed.

Lemma locations_before_mount_witness :
  let s := exec fs_a [SetLocation (posix ["a"; "src"]); SetLocation (posix ["a"; "docs"; ".."])]
             nav_created in
  workers s = [] /\ _initial_location s = posix ["a"].
Proof.
  intros s.
  destruct (locations_before_mount fs_a
              [posix ["a"; "src"]; posix ["a"; "docs"; ".."]] nav_created eq_refl)
    as (_ & Hw & _ & _ & _ & _ & Hi).
  split; [exact Hw|exact Hi].
Defined.

(** ** Selecting a row *)

(** X3. Selecting a row makes the location of its entry the current
    location. When that is a new location, one [Changed] is posted, the
    scans still running are cancelled and one scan is started; the cache,
    the rows and the highlight stay as they are until that scan writes
    them. Selecting a row that leads to the current location does
    nothing. *)
Theorem select_row_effect (s : DirectoryNavigation) (i : nat) (e : DirectoryEntry) :
  options s !! i = Some e ->
  let s' := after (_on_option_list_option_selected i) s in
  _location s' = location e /\
  _entries s' = _entries s /\
  options s' = options s /\
  highlighted s' = highlighted s /\
  (location e = _location s -> s' = s) /\
  (location e <> _location s ->
     changed_posted s' = S (changed_posted s) /\
     workers s' = map cancel (workers s) ++ [mkWorker AtClear false]).
Proof.
  intros He. unfold after, _on_option_list_option_selected, assign__location.
  rewrite He.
  destruct (decide (_location s = location e)) as [E|Hne]; simpl.
  - repeat split; congruence.
  - repeat split; congruence.
Qed.

Lemma select_row_effect_witness :
  let s := nav_at_a fs_a in
  let s' := after (_on_option_list_option_selected 2) s in
  _location s' = posix ["a"; "src"] /\ options s' = options s.
Proof.
  intros s s'.
  destruct (select_row_effect s 2 (mkEntry 1 (posix ["a"; "src"]) "src" 40)
              ltac:(vm_compute; reflexivity)) as (Hl & _ & Ho & _).
  split; [exact Hl|exact Ho].
Defined.

(** ** The drives *)

(** X13. The drives are listed below the rows the widget has, in the
    order of the platform, and selecting the row of a drive posts
    [DriveSelected] with exactly that drive; the rows stay. *)
Theorem drives_mount_then_select (roots : list string)
    (s : drive_navigation.DriveNavigation) (i : nat) (root : string) :
  roots !! i = Some root ->
  let s1 := snd (drive_navigation.on_mount (drive_navigation.Drives roots) s) in
  let s2 := snd (drive_navigation.select_drive
                   (length (drive_navigation.drive_options s) + i) s1) in
  drive_navigation.drive_options s2 = drive_navigation.drive_options s ++ roots /\
  drive_navigation.drive_posted s2 = drive_navigation.drive_posted s ++ [root].
Proof.
  intros Hi. unfold drive_navigation.on_mount, drive_navigation.select_drive. simpl.
  rewrite lookup_app_r by lia.
  replace (length (drive_navigation.drive_options s) + i
           - length (drive_navigation.drive_options s)) with i by lia.
  rewrite Hi. simpl. split; reflexivity.
Qed.

Lemma drives_mount_then_select_witness :
  drive_navigation.drive_posted
    (snd (drive_navigation.select_drive 1
            (snd (drive_navigation.on_mount (drive_navigation.Drives ["C:\"; "D:\"])
                    (drive_navigation.mkDrives [] []))))) = ["D:\"].
Proof.
  exact (proj2 (drives_mount_then_select ["C:\"; "D:\"]
                  (drive_navigation.mkDrives [] []) 1 "D:\" eq_refl)).
Defined.

(** ** Going up *)

Lemma collapse_normalised (todo : list string) :
  forall done, ~ In ".." todo -> collapse done todo = done ++ todo.
Proof.
  induction todo as [|c todo IH]; intros done H; simpl.
  - rewrite app_nil_r. reflexivity.
  - destruct (decide (c = "..")) as [->|_]; [exfalso; apply H; left; reflexivity|].
    rewrite IH by (intros Hin; apply H; right; exact Hin).
    rewrite <- List.app_assoc. reflexivity.
Qed.

Lemma resolve_normalised_id (p : Path) : normalised p -> resolve p = p.
Proof.
  intros H. unfold resolve. rewrite collapse_normalised by exact H.
  destruct p; reflexivity.
Qed.

Lemma collapse_app (l1 l2 : list string) :
  forall done, collapse done (l1 ++ l2) = collapse (collapse done l1) l2.
Proof.
  induction l1 as [|c l1 IH]; intros done; simpl; [reflexivity|].
  destruct (decide (c = "..")); apply IH.
Qed.

Lemma resolve_dotdot (p : Path) :
  normalised p -> resolve (joinpath p "..") = parent p.
Proof.
  intros H. unfold resolve, joinpath, parent. simpl.
  rewrite collapse_app, (collapse_normalised (parts p)) by exact H. reflexivity.
Qed.

(** X4. The parent row leads one level up. When the current location is
    a normalised path and not the root, the first row of a projection is
    the row named [".."], and selecting it makes the parent directory of
    the current location the current location. *)
Theorem select_parent_row (fs : FS) (s s' : DirectoryNavigation) :
  normalised (_location s) ->
  is_root s = false ->
  _repopulate_display fs s = (Ok tt, s') ->
  (exists e, options s' !! 0 = Some e /\ prompt_name e = ".." /\
             location e = parent (_location s)) /\
  _location (after (_on_option_list_option_selected 0) s') = parent (_location s).
Proof.
  intros Hn Hroot Hrun.
  destruct (parent_row_first fs s s' Hrun Hroot) as (e & He & Hname & Hopts).
  apply parent_row_fields in He. destruct He as (_ & _ & Hloc).
  rewrite resolve_dotdot in Hloc by exact Hn.
  split.
  - exists e. rewrite Hopts. repeat split; assumption.
  - unfold after, _on_option_list_option_selected, assign__location.
    rewrite Hopts. simpl.
    destruct (decide (_location s' = location e)) as [E|_]; simpl; congruence.
Qed.

Lemma select_parent_row_witness :
  let s := exec fs_a (Mount :: replicate 9 (Run 0)) nav_created in
  let s' := after (_repopulate_display fs_a) s in
  _location (after (_on_option_list_option_selected 0) s') = posix [].
Proof.
  intros s s'.
  refine (proj2 (select_parent_row fs_a s s' _ _ _)).
  - vm_compute. intros [H|[]]. discriminate.
  - vm_compute. reflexivity.
  - vm_compute. reflexivity.
Defined.

(** ** The paths a widget holds *)

Lemma In_removelast {A : Type} (x : A) (l : list A) : In x (removelast l) -> In x l.
Proof.
  induction l as [|a l IH]; simpl; [tauto|].
  destruct l as [|b l]; [intros []|].
  intros [H|H]; [left; exact H|right; apply IH; exact H].
Qed.

Lemma collapse_clean (todo : list string) :
  forall done, ~ In ".." done -> ~ In ".." (collapse done todo).
Proof.
  induction todo as [|c todo IH]; intros done H; simpl; [exact H|].
  destruct (decide (c = "..")) as [->|Hc]; apply IH.
  - intros Hin. apply H, In_removelast, Hin.
  - intros Hin. apply in_app_or in Hin. destruct Hin as [Hin|[Hin|[]]]; [tauto|congruence].
Qed.

Lemma resolve_normalised (p : Path) : normalised (resolve p).
Proof. unfold normalised, resolve. simpl. apply collapse_clean. intros []. Qed.

Lemma tidy_entry (fs : FS) (o : nat) (p : Path) (e : DirectoryEntry) :
  DirectoryEntry_init fs o p = Some e -> normalised (location e).
Proof.
  unfold DirectoryEntry_init. destruct (stat fs p); [|discriminate].
  intros H; inversion H; subst; simpl. apply resolve_normalised.
Qed.

Lemma tidy_live (s s' : DirectoryNavigation) :
  tidy s ->
  _initial_location s' = _initial_location s -> _location s' = _location s ->
  (forall e, In e (live s') -> In e (live s) \/ normalised (location e)) ->
  tidy s'.
Proof.
  intros (Hi & Hl & Hall) Ei El Hin. unfold tidy. rewrite Ei, El.
  split; [exact Hi|]. split; [exact Hl|].
  rewrite List.Forall_forall in *. intros e He.
  destruct (Hin e He) as [H|H]; [apply Hall, H|exact H].
Qed.

Lemma tidy_repopulate (fs : FS) (s : DirectoryNavigation) :
  tidy s -> tidy (after (_repopulate_display fs) s).
Proof.
  intros H. unfold after. rewrite _repopulate_display_eq.
  destruct (is_root s); [|destruct (parent_row fs s) as [p|] eqn:E]; simpl;
    (eapply tidy_live; [exact H|reflexivity|reflexivity|]);
    unfold live; simpl; intros e He; apply in_app_or in He.
  - destruct He as [He|He]; left; apply in_or_app; [left; exact He|].
    left. apply shown_incl in He. exact He.
  - destruct He as [He|[<-|He]].
    + left; apply in_or_app; left; exact He.
    + right. eapply tidy_entry. exact E.
    + left; apply in_or_app; left. apply shown_incl in He. exact He.
  - destruct He as [He|[]]. left; apply in_or_app; left; exact He.
Qed.

Lemma tidy_run_worker (fs : FS) (w : nat) (s : DirectoryNavigation) :
  tidy s -> tidy (run_worker fs w s).
Proof.
  intros H. unfold run_worker.
  destruct (workers s !! w) as [wk|]; [|exact H].
  destruct (pc wk) as [| |[|entry pending]|pending| |r]; try exact H.
  - eapply tidy_live; [exact H|reflexivity|reflexivity|].
    unfold live; simpl. intros e He. left. apply in_or_app. right. exact He.
  - destruct (iterdir fs (_location s)); exact H.
  - destruct (is_dir fs entry); [|exact H].
    unfold new_DirectoryEntry.
    destruct (DirectoryEntry_init fs (next_oid s) _) as [e|] eqn:E; [|exact H].
    eapply tidy_live; [exact H|reflexivity|reflexivity|].
    unfold live; simpl. intros x Hx.
    apply in_app_or in Hx. destruct Hx as [Hx|Hx].
    + apply in_app_or in Hx. destruct Hx as [Hx|[<-|[]]].
      * left. apply in_or_app. left. exact Hx.
      * right. eapply tidy_entry. exact E.
    + left. apply in_or_app. right. exact Hx.
  - destruct (is_cancelled wk); exact H.
  - pose proof (tidy_repopulate fs s H) as H'. unfold after in H'.
    destruct (_repopulate_display fs s) as [[[]|x] s']; exact H'.
Qed.

Lemma tidy_assign__location (v : Path) (s : DirectoryNavigation) :
  tidy s -> normalised v -> tidy (after (assign__location v) s).
Proof.
  intros H Hv. unfold after, assign__location.
  destruct (decide (_location s = v)); [exact H|].
  destruct H as (Hi & _ & Hall). repeat split; assumption.
Qed.

Lemma tidy_step (fs : FS) (s : DirectoryNavigation) (ev : Event) :
  tidy s -> tidy (step fs s ev).
Proof.
  intros H. destruct ev as [|p|i| |v|w]; simpl.
  - apply (tidy_assign__location (_initial_location s) (set__mounted true s)).
    + exact H.
    + apply H.
  - unfold after, location_setter. destruct (_mounted s).
    + apply tidy_assign__location; [exact H|apply resolve_normalised].
    + destruct H as (_ & Hl & Hall). split; [apply resolve_normalised|].
      split; assumption.
  - unfold after, _on_option_list_option_selected.
    destruct (options s !! i) as [e|] eqn:E; [|exact H].
    apply tidy_assign__location; [exact H|].
    destruct H as (_ & _ & Hall). rewrite List.Forall_forall in Hall. apply Hall.
    unfold live. apply in_or_app. right.
    apply list_elem_of_In, list_elem_of_lookup. exists i. exact E.
  - unfold after, toggle_hidden, assign_show_hidden.
    destruct (decide _); [exact H|].
    apply (tidy_repopulate fs (store_show_hidden _ s)). exact H.
  - unfold after, assign_sort_display.
    destruct (decide _); [exact H|].
    apply (tidy_repopulate fs (store_sort_display _ s)). exact H.
  - apply tidy_run_worker. exact H.
Qed.

(** X14. The widget only ever holds normalised paths. Created in a
    normalised working directory, whatever happens to it afterwards, its
    current location and the location of every entry in its cache and
    among its rows have no [".."] component; resolving such a path gives
    the path itself. *)
Theorem locations_stay_normalised (fs : FS) (cwd loc : Path) (schedule : list Event) :
  normalised cwd ->
  let s := exec fs schedule (DirectoryNavigation_init cwd loc) in
  normalised (_location s) /\
  resolve (_location s) = _location s /\
  forall e, In e (_entries s ++ options s) -> normalised (location e).
Proof.
  intros Hcwd s.
  assert (H : tidy s).
  { subst s. assert (H0 : tidy (DirectoryNavigation_init cwd loc)).
    { split; [apply resolve_normalised|]. split; [exact Hcwd|constructor]. }
    revert H0. generalize (DirectoryNavigation_init cwd loc).
    induction schedule as [|ev evs IH]; intros s0 H0; simpl; [exact H0|].
    apply IH, tidy_step, H0. }
  destruct H as (_ & Hl & Hall).
  split; [exact Hl|]. split; [apply resolve_normalised_id, Hl|].
  rewrite List.Forall_forall in Hall. exact Hall.
Qed.

Lemma locations_stay_normalised_witness :
  normalised (_location (exec fs_abc race_schedule
                           (DirectoryNavigation_init (posix ["home"]) (posix ["a"; ".."; "a"])))).
Proof.
  refine (proj1 (locations_stay_normalised fs_abc (posix ["home"]) (posix ["a"; ".."; "a"])
                   race_schedule _)).
  vm_compute. intros [H|[]]. discriminate.
Defined.

(** ** What changes the rows *)

Lemma assign__location_rows (v : Path) (s : DirectoryNavigation) :
  options (after (assign__location v) s) = options s /\
  highlighted (after (assign__location v) s) = highlighted s /\
  _entries (after (assign__location v) s) = _entries s.
Proof.
  unfold after, assign__location. destruct (decide (_location s = v)); repeat split.
Qed.

(** X9. Once the widget is mounted, the rows and the highlight are
    written by a projection only. If an event other than the mounting
    changes them, it is a toggle of [show_hidden], an assignment that
    changes [sort_display], or the hand-over of a scan at its end.
    Assigning a location, selecting a row and every statement of a scan
    before its hand-over leave the rows on display as they are: after a
    change of location the old rows stay until the new scan has finished.
    (Mounting is left out: there the framework calls the watchers of the
    two flags once, and they project.) *)
Theorem rows_change_only_on_projection (fs : FS) (s : DirectoryNavigation) (ev : Event) :
  ev <> Mount ->
  options (step fs s ev) <> options s \/ highlighted (step fs s ev) <> highlighted s ->
  ev = ToggleHidden \/
  (exists v, ev = SetSortDisplay v /\ v <> sort_display s) \/
  (exists w wk, ev = Run w /\ workers s !! w = Some wk /\ pc wk = AtRepopulate).
Proof.
  intros Hmount H. destruct ev as [|p|i| |v|w]; simpl in H.
  - contradiction.
  - exfalso. unfold after, location_setter in H. destruct (_mounted s).
    + destruct (assign__location_rows (resolve p) s) as (Ho & Hh & _).
      unfold after in *. destruct H as [H|H]; apply H; assumption.
    + destruct H as [H|H]; apply H; reflexivity.
  - exfalso. unfold after, _on_option_list_option_selected in H.
    destruct (options s !! i) as [e|].
    + destruct (assign__location_rows (location e) s) as (Ho & Hh & _).
      unfold after in *. destruct H as [H|H]; apply H; assumption.
    + destruct H as [H|H]; apply H; reflexivity.
  - left. reflexivity.
  - right. left. exists v. split; [reflexivity|].
    intros ->. unfold after, assign_sort_display in H.
    destruct (decide (sort_display s = sort_display s)) as [_|Hne]; [|contradiction].
    destruct H as [H|H]; apply H; reflexivity.
  - right. right. destruct (workers s !! w) as [wk|] eqn:Hw.
    + destruct (decide (pc wk = AtRepopulate)) as [E|Hne].
      * exists w, wk. repeat split; assumption.
      * exfalso. destruct (run_worker_untouched fs s w wk Hw Hne) as (Ho & Hh & _).
        destruct H as [H|H]; apply H; assumption.
    + exfalso. unfold run_worker in H. rewrite Hw in H.
      destruct H as [H|H]; apply H; reflexivity.
Qed.

Lemma rows_change_only_on_projection_witness :
  options (step fs_a (nav_at_a fs_a) ToggleHidden) <> options (nav_at_a fs_a) /\
  (ToggleHidden = ToggleHidden \/
   (exists v, ToggleHidden = SetSortDisplay v /\ v <> sort_display (nav_at_a fs_a)) \/
   (exists w wk, ToggleHidden = Run w /\ workers (nav_at_a fs_a) !! w = Some wk /\
                 pc wk = AtRepopulate)).
Proof.
  assert (H : options (step fs_a (nav_at_a fs_a) ToggleHidden) <> options (nav_at_a fs_a))
    by (vm_compute; discriminate).
  split; [exact H|].
  exact (rows_change_only_on_projection fs_a (nav_at_a fs_a) ToggleHidden
           ltac:(discriminate) (or_introl H)).
Defined.

(** ** What a cancelled worker can still do *)

Lemma cancelled_turn (fs : FS) (w : nat) (s : DirectoryNavigation) (wk : Worker) :
  workers s !! w = Some wk -> is_cancelled wk = true ->
  exists wk', workers (run_worker fs w s) !! w = Some wk' /\ is_cancelled wk' = true /\
    length (_entries (run_worker fs w s)) + may_append (pc wk')
      <= length (_entries s) + may_append (pc wk).
Proof.
  intros Hw Hc. unfold run_worker. rewrite Hw.
  destruct (pc wk) as [| |[|entry pending]|pending| |r] eqn:Hpc.
  - eexists. split; [apply goto_lookup; exact Hw|]. simpl. split; [exact Hc|lia].
  - destruct (iterdir fs (_location s));
      (eexists; split; [apply goto_lookup; exact Hw|]; simpl; split; [exact Hc|lia]).
  - eexists. split; [apply goto_lookup; exact Hw|]. simpl. split; [exact Hc|lia].
  - destruct (is_dir fs entry).
    + unfold new_DirectoryEntry. destruct (DirectoryEntry_init fs _ _);
        (eexists; split; [apply goto_lookup; exact Hw|]; simpl; split; [exact Hc|]).
      * rewrite length_app. simpl. lia.
      * lia.
    + eexists. split; [apply goto_lookup; exact Hw|]. simpl. split; [exact Hc|lia].
  - rewrite Hc. eexists. split; [apply goto_lookup; exact Hw|]. simpl.
    split; [exact Hc|lia].
  - pose proof (_repopulate_display_frame fs s) as F. unfold after in F.
    destruct (_repopulate_display fs s) as [[[]|x] s']; simpl in F;
      destruct F as (_ & _ & _ & _ & _ & Fe & _ & Fw);
      (eexists; split; [apply goto_lookup; rewrite Fw; exact Hw|]; simpl;
       split; [exact Hc|rewrite Fe; lia]).
  - exists wk. split; [exact Hw|]. split; [exact Hc|]. rewrite Hpc. lia.
Qed.

(** X10. A worker that is cancelled appends at most one more entry to
    the cache, however many turns it still gets, and none once it stands
    at its cancellation check or beyond; and a cancelled worker that
    stands at its cancellation check returns at once. *)
Theorem cancelled_worker_appends_once (fs : FS) (w n : nat) :
  forall (s : DirectoryNavigation) (wk : Worker),
  workers s !! w = Some wk ->
  is_cancelled wk = true ->
  let s' := exec fs (replicate n (Run w)) s in
  length (_entries s') <= length (_entries s) + may_append (pc wk) /\
  (forall pending, pc wk = AtCheck pending -> 0 < n ->
     pc <$> workers s' !! w = Some (Finished Returned) /\ _entries s' = _entries s).
Proof.
  induction n as [|n IH]; intros s wk Hw Hc; cbv zeta.
  - simpl. split; [lia|]. intros pending _ H. lia.
  - change (exec fs (replicate (S n) (Run w)) s)
      with (exec fs (replicate n (Run w)) (run_worker fs w s)).
    destruct (cancelled_turn fs w s wk Hw Hc) as (wk' & Hw' & Hc' & Hle).
    destruct (IH (run_worker fs w s) wk' Hw' Hc') as [Hlen _].
    split; [lia|].
    intros pending Hpc _.
    assert (Hrun : run_worker fs w s = goto w (Finished Returned) s).
    { unfold run_worker. rewrite Hw, Hpc, Hc. reflexivity. }
    rewrite Hrun in *.
    assert (Hidle : forall m, exec fs (replicate m (Run w)) (goto w (Finished Returned) s)
                              = goto w (Finished Returned) s).
    { induction m as [|m IHm]; [reflexivity|]. simpl.
      unfold run_worker at 1. erewrite goto_lookup by exact Hw. simpl. exact IHm. }
    rewrite Hidle. split; [|reflexivity].
    erewrite goto_lookup by exact Hw. reflexivity.
Qed.

Lemma cancelled_worker_appends_once_witness :
  let s := exec fs_abc [SetLocation (posix ["c"]); Run 1; Run 1; SetLocation (posix ["b"])]
             (nav_at_a fs_abc) in
  length (_entries (exec fs_abc (replicate 5 (Run 1)) s)) <= length (_entries s) + 1.
Proof.
  intros s.
  exact (proj1 (cancelled_worker_appends_once fs_abc 1 5 s
                  (mkWorker (AtNext [posix ["c"; "data"]]) true)
                  ltac:(vm_compute; reflexivity) eq_refl)).
Defined.

(** X8. Cancellation is honoured only inside the loop. The scan of a
    directory without children never reaches the cancellation check:
    cancelled or not, in four statements it empties the cache and hands
    over to the projection, which then shows the empty cache; it never
    ends by the [return] of a cancelled scan. *)
Theorem scan_of_empty_directory (fs : FS) (s : DirectoryNavigation) (w : nat) (wk : Worker) :
  workers s !! w = Some wk ->
  pc wk = AtClear ->
  iterdir fs (_location s) = Some [] ->
  let s' := exec fs (replicate 4 (Run w)) s in
  _entries s' = [] /\
  exists r, workers s' !! w = Some (mkWorker (Finished r) (is_cancelled wk)) /\
            r <> Returned /\
            (r = Completed ->
               options s' = options (after (_repopulate_display fs) (set__entries [] s))).
Proof.
  intros Hw Hpc Hdir. simpl.
  assert (H1 : run_worker fs w s = goto w AtIterdir (set__entries [] s)).
  { unfold run_worker. rewrite Hw, Hpc. reflexivity. }
  rewrite H1. set (s1 := goto w AtIterdir (set__entries [] s)).
  assert (Hw1 : workers s1 !! w = Some (mkWorker AtIterdir (is_cancelled wk)))
    by (apply goto_lookup; exact Hw).
  assert (H2 : run_worker fs w s1 = goto w (AtNext []) s1).
  { unfold run_worker. rewrite Hw1. simpl pc. cbv iota.
    change (_location s1) with (_location s). rewrite Hdir. reflexivity. }
  rewrite H2. set (s2 := goto w (AtNext []) s1).
  assert (Hw2 : workers s2 !! w = Some (mkWorker (AtNext []) (is_cancelled wk)))
    by (unfold s2; erewrite goto_lookup by exact Hw1; reflexivity).
  assert (H3 : run_worker fs w s2 = goto w AtRepopulate s2).
  { unfold run_worker. rewrite Hw2. reflexivity. }
  rewrite H3. set (s3 := goto w AtRepopulate s2).
  assert (Hw3 : workers s3 !! w = Some (mkWorker AtRepopulate (is_cancelled wk)))
    by (unfold s3; erewrite goto_lookup by exact Hw2; reflexivity).
  assert (Hsame : _repopulate_display fs s3
                  = (fst (_repopulate_display fs s3), after (_repopulate_display fs) s3))
    by (unfold after; destruct (_repopulate_display fs s3); reflexivity).
  pose proof (_repopulate_display_frame fs s3) as F. cbv zeta in F.
  destruct F as (_ & _ & _ & _ & _ & Fe & _ & Fw).
  assert (Hopts : options (after (_repopulate_display fs) s3)
                  = options (after (_repopulate_display fs) (set__entries [] s))).
  { unfold after. rewrite !_repopulate_display_eq.
    change (is_root s3) with (is_root (set__entries [] s)).
    change (parent_row fs s3) with (parent_row fs (set__entries [] s)).
    destruct (is_root (set__entries [] s));
      [|destruct (parent_row fs (set__entries [] s))]; reflexivity. }
  unfold run_worker. rewrite Hw3. simpl pc. cbv iota. rewrite Hsame.
  destruct (fst (_repopulate_display fs s3)) as [[]|x].
  - split; [exact Fe|]. exists Completed.
    split; [erewrite goto_lookup by (rewrite Fw; exact Hw3); reflexivity|].
    split; [discriminate|]. intros _. exact Hopts.
  - split; [exact Fe|]. exists (Failed x).
    split; [erewrite goto_lookup by (rewrite Fw; exact Hw3); reflexivity|].
    split; [discriminate|]. intros E; discriminate.
Qed.

Lemma scan_of_empty_directory_witness :
  let s := cancel_worker 1 (exec fs_abc [SetLocation (posix ["a"; "src"])] (nav_at_a fs_abc)) in
  let s' := exec fs_abc (replicate 4 (Run 1)) s in
  workers s !! 1 = Some (mkWorker AtClear true) /\
  _entries s' = [] /\
  workers s' !! 1 = Some (mkWorker (Finished Completed) true).
Proof.
  intros s s'.
  assert (Hw : workers s !! 1 = Some (mkWorker AtClear true)) by (vm_compute; reflexivity).
  split; [exact Hw|].
  destruct (scan_of_empty_directory fs_abc s 1 (mkWorker AtClear true) Hw eq_refl
              ltac:(vm_compute; reflexivity)) as (He & _).
  split; [exact He|]. vm_compute. reflexivity.
Defined.

(** ** Toggling twice, and the highlight *)

Lemma toggle_hidden_eq (fs : FS) (s : DirectoryNavigation) :
  toggle_hidden fs s = _repopulate_display fs (store_show_hidden (negb (show_hidden s)) s).
Proof.
  unfold toggle_hidden, assign_show_hidden.
  destruct (decide (show_hidden s = negb (show_hidden s))) as [E|_]; [|reflexivity].
  destruct (show_hidden s); discriminate.
Qed.

(** X11. Toggling [show_hidden] twice comes back: when both toggles
    return, the flag has its old value, the cache and the sort flag were
    never touched, and the rows are, below at most one parent row, the
    cache as the old flags show it. *)
Theorem toggle_hidden_twice (fs : FS) (s s1 s2 : DirectoryNavigation) :
  toggle_hidden fs s = (Ok tt, s1) ->
  toggle_hidden fs s1 = (Ok tt, s2) ->
  show_hidden s1 = negb (show_hidden s) /\
  show_hidden s2 = show_hidden s /\
  sort_display s2 = sort_display s /\
  _entries s2 = _entries s /\
  _location s2 = _location s /\
  exists parent_rows,
    length parent_rows <= 1 /\
    options s2 = parent_rows ++ shown (show_hidden s) (sort_display s) (_entries s).
Proof.
  rewrite !toggle_hidden_eq. intros H1 H2.
  pose proof (_repopulate_display_frame fs (store_show_hidden (negb (show_hidden s)) s)) as F1.
  pose proof (_repopulate_display_frame fs (store_show_hidden (negb (show_hidden s1)) s1)) as F2.
  unfold after in F1, F2. rewrite H1 in F1. rewrite H2 in F2. simpl in F1, F2.
  destruct F1 as (_ & _ & L1 & S1 & O1 & E1 & _).
  destruct F2 as (_ & _ & L2 & S2 & O2 & E2 & _).
  assert (Hshow : show_hidden s2 = show_hidden s)
    by (rewrite S2, S1; apply negb_involutive).
  split; [exact S1|]. split; [exact Hshow|].
  split; [congruence|]. split; [congruence|]. split; [congruence|].
  destruct (_repopulate_display_options fs _ s2 H2) as (rows & Ho & Hr).
  exists rows. split.
  - destruct (is_root _); [subst rows; simpl; lia|].
    destruct Hr as (e & -> & _). simpl. lia.
  - rewrite Ho. simpl. rewrite S1, negb_involutive, O1, E1. reflexivity.
Qed.

Lemma toggle_hidden_twice_witness :
  let s := nav_at_a fs_a in
  let s1 := after (toggle_hidden fs_a) s in
  let s2 := after (toggle_hidden fs_a) s1 in
  map prompt_name (options s1) = [".."; ".git"; "docs"; "src"] /\
  show_hidden s2 = show_hidden s /\
  map prompt_name (options s2) = map prompt_name (options s).
Proof.
  intros s s1 s2.
  destruct (toggle_hidden_twice fs_a s s1 s2
              ltac:(vm_compute; reflexivity) ltac:(vm_compute; reflexivity))
    as (_ & Hs & _).
  split; [vm_compute; reflexivity|]. split; [exact Hs|]. vm_compute. reflexivity.
Defined.

(** X12. A projection that returns puts the highlight on the first row
    whenever there is a row, whichever row was highlighted before; away
    from the root there always is one, the parent row. *)
Theorem projection_settles_highlight (fs : FS) (s s' : DirectoryNavigation) :
  _repopulate_display fs s = (Ok tt, s') ->
  (options s' <> [] -> highlighted s' = Some 0) /\
  (is_root s = false -> options s' <> [] /\ highlighted s' = Some 0).
Proof.
  rewrite _repopulate_display_eq. intros H.
  destruct (is_root s).
  - inversion H; subst; simpl. split; [|discriminate].
    destruct (shown _ _ _); [contradiction|reflexivity].
  - destruct (parent_row fs s) as [e|]; [|discriminate].
    inversion H; subst; simpl. split; [reflexivity|]. intros _.
    split; [discriminate|reflexivity].
Qed.

Lemma projection_settles_highlight_witness :
  let s := set_highlighted (Some 2) (nav_at_a fs_a) in
  highlighted (after (toggle_hidden fs_a) s) = Some 0.
Proof.
  intros s.
  refine (proj1 (projection_settles_highlight fs_a
                   (store_show_hidden true s) (after (toggle_hidden fs_a) s) _) _).
  - vm_compute. reflexivity.
  - vm_compute. discriminate.
Defined.

(** ** Selecting a directory and letting its scan run *)

(** X15. Selecting a row that leads elsewhere and letting the scan it
    starts run undisturbed to completion opens that directory: the
    current location is the location of the row, the cache holds the
    subdirectories of that location in the order of enumeration and
    nothing else, and the rows are that cache as the flags show it, below
    at most one parent row. *)
Theorem select_then_scan (fs : FS) (s : DirectoryNavigation) (i n : nat)
    (e : DirectoryEntry) :
  options s !! i = Some e ->
  location e <> _location s ->
  let w := length (workers s) in
  let s' := exec fs (Select i :: replicate n (Run w)) s in
  pc <$> workers s' !! w = Some (Finished Completed) ->
  _location s' = location e /\
  map location (_entries s') = listing fs (location e) /\
  exists parent_rows,
    length parent_rows <= 1 /\
    options s' = parent_rows ++ shown (show_hidden s) (sort_display s) (_entries s').
Proof.
  intros He Hne w s' Hend.
  set (s1 := step fs s (Select i)).
  assert (Hs1 : s1 = after (_watch__location) (store__location (location e) s)).
  { unfold s1. simpl. unfold after, _on_option_list_option_selected, assign__location.
    rewrite He. destruct (decide (_location s = location e)); [congruence|reflexivity]. }
  assert (Hw : workers s1 !! w = Some (mkWorker AtClear false)).
  { rewrite Hs1. unfold after, _watch__location, bind, modify, _load. simpl.
    rewrite lookup_app_r by (rewrite length_map; unfold w; lia).
    rewrite length_map. unfold w. rewrite Nat.sub_diag. reflexivity. }
  assert (Hinv : scan_inv fs s1 w s').
  { apply (scan_inv_runs fs s1 w n s1). eapply scan_inv_start; [exact Hw|reflexivity]. }
  destruct Hinv as (wk' & Hw' & H).
  rewrite Hw' in Hend. simpl in Hend. injection Hend as Hend. rewrite Hend in H.
  destruct H as (Hl & (names & Hdir & Hent) & Hrows).
  assert (Hloc : _location s1 = location e) by (rewrite Hs1; reflexivity).
  assert (Hsh : show_hidden s1 = show_hidden s) by (rewrite Hs1; reflexivity).
  assert (Hso : sort_display s1 = sort_display s) by (rewrite Hs1; reflexivity).
  rewrite Hloc in *. rewrite Hsh, Hso in Hrows.
  split; [exact Hl|]. split; [|exact Hrows].
  unfold listing. rewrite Hdir, Hent. apply scanned_listing.
Qed.

Lemma select_then_scan_witness :
  let s := nav_at_a fs_abc in
  let s' := exec fs_abc (Select 0 :: replicate 12 (Run 1)) s in
  _location s' = posix [] /\
  map location (_entries s') = [posix ["a"]; posix ["b"]; posix ["c"]].
Proof.
  intros s s'.
  destruct (select_then_scan fs_abc s 0 12 (mkEntry 3 (posix []) ".." 10)
              ltac:(vm_compute; reflexivity) ltac:(vm_compute; discriminate)
              ltac:(vm_compute; reflexivity)) as (Hl & He & _).
  split; [exact Hl|]. vm_compute. reflexivity.
Defined.

(** ** An undisturbed scan, on an example *)

Lemma undisturbed_scan_witness :
  let s := exec fs_abc [SetLocation (posix ["b"])] (nav_at_a fs_abc) in
  let s' := exec fs_abc (replicate 8 (Run 1)) s in
  map location (_entries s') = listing fs_abc (posix ["b"]) /\
  listing fs_abc (posix ["b"]) = [posix ["b"; "src"]].
Proof.
  intros s s'.
  destruct (undisturbed_scan fs_abc s 1 (mkWorker AtClear false) 8
              ltac:(vm_compute; reflexivity) eq_refl ltac:(vm_compute; reflexivity))
    as (_ & He & _).
  split; [exact He|]. vm_compute. reflexivity.
Defined.

(** ** The entries of a scan *)

Lemma scanned_labels (fs : FS) (loc : Path) (names : list string) :
  forall o, map prompt_name (scanned fs loc o names)
            = map name (List.filter (is_dir fs) (map (joinpath loc) names)).
Proof.
  induction names as [|n names IH]; intros o; simpl; [reflexivity|].
  unfold is_dir at 1.
  destruct (stat fs (joinpath loc n)) as [nd|]; [destruct (node_is_dir nd)|];
    simpl; rewrite IH; try reflexivity.
  rewrite name_joinpath. reflexivity.
Qed.

(** X16. The entries of a scan carry the names of the children that are
    directories. After an undisturbed scan has completed, the labels of
    the entries of the cache are, in order, the names of those children
    the location enumerated for which [is_dir()] held. *)
Theorem scanned_entries_labels (fs : FS) (s : DirectoryNavigation) (w : nat)
    (wk : Worker) (n : nat) (children : list Path) :
  workers s !! w = Some wk ->
  pc wk = AtClear ->
  iterdir fs (_location s) = Some children ->
  let s' := exec fs (replicate n (Run w)) s in
  pc <$> workers s' !! w = Some (Finished Completed) ->
  map prompt_name (_entries s') = map name (List.filter (is_dir fs) children).
Proof.
  intros Hw Hpc Hdir s' Hend.
  assert (Hinv : scan_inv fs s w s').
  { apply scan_inv_runs. eapply scan_inv_start; eassumption. }
  destruct Hinv as (wk' & Hw' & H).
  rewrite Hw' in Hend. simpl in Hend. injection Hend as Hend. rewrite Hend in H.
  destruct H as (_ & (names & Hdir' & Hent) & _).
  rewrite Hdir in Hdir'. injection Hdir' as ->.
  rewrite Hent. apply scanned_labels.
Qed.

Lemma scanned_entries_labels_witness :
  let s := exec fs_abc [SetLocation (posix ["b"])] (nav_at_a fs_abc) in
  let s' := exec fs_abc (replicate 8 (Run 1)) s in
  iterdir fs_abc (_location s) = Some [posix ["b"; "data"]; posix ["b"; "src"]] /\
  map prompt_name (_entries s') = ["src"].
Proof.
  intros s s'.
  assert (Hdir : iterdir fs_abc (_location s)
                 = Some [posix ["b"; "data"]; posix ["b"; "src"]]) by (vm_compute; reflexivity).
  split; [exact Hdir|].
  pose proof (scanned_entries_labels fs_abc s 1 (mkWorker AtClear false) 8 _
                ltac:(vm_compute; reflexivity) eq_refl Hdir ltac:(vm_compute; reflexivity))
    as H.
  cbv zeta in H. unfold s'. rewrite H. vm_compute. reflexivity.
Defined.

(** ** The parent row where paths have no drive *)

(** X17. Where paths have no drive, a projection that returns shows the
    parent row exactly when the current location is not the root: at the
    root the rows are the cache as the flags show it and nothing else,
    elsewhere they are that below a first row named [".."]. *)
Theorem parent_row_rule_posix (fs : FS) (s s' : DirectoryNavigation) :
  drive (_location s) = "" ->
  _repopulate_display fs s = (Ok tt, s') ->
  (parts (_location s) = [] ->
     options s' = shown (show_hidden s) (sort_display s) (_entries s)) /\
  (parts (_location s) <> [] ->
     exists e, prompt_name e = ".." /\
               location e = resolve (joinpath (_location s) "..") /\
               options s' = e :: shown (show_hidden s) (sort_display s) (_entries s)).
Proof.
  intros Hd Hrun.
  assert (Hroot : is_root s = true <-> parts (_location s) = []).
  { unfold is_root, root_path. destruct (_location s) as [d ps]. simpl in *. subst d.
    rewrite bool_decide_eq_true. split; [intros H; inversion H|intros ->]; reflexivity. }
  destruct (_repopulate_display_options fs s s' Hrun) as (rows & Hopts & Hrows).
  split; intros Hp.
  - apply Hroot in Hp. rewrite Hp in Hrows. subst rows. exact Hopts.
  - destruct (is_root s) eqn:E; [exfalso; apply Hp, Hroot; reflexivity|].
    destruct Hrows as (e & -> & He). apply parent_row_fields in He.
    destruct He as (_ & Hname & Hloc). exists e. repeat split; assumption.
Qed.

Lemma parent_row_rule_posix_witness :
  let s := exec fs_abc (Select 0 :: replicate 11 (Run 1)) (nav_at_a fs_abc) in
  parts (_location s) = [] /\
  map prompt_name (options (after (_repopulate_display fs_abc) s)) = ["a"; "b"; "c"].
Proof.
  intros s. split; [vm_compute; reflexivity|].
  rewrite (proj1 (parent_row_rule_posix fs_abc s (after (_repopulate_display fs_abc) s)
                    ltac:(vm_compute; reflexivity) ltac:(vm_compute; reflexivity))
             ltac:(vm_compute; reflexivity)).
  vm_compute. reflexivity.
Defined.
